(** * fastllm: embedding scripts, modelled and verified

    A shallow embedding of the scripts under [applications/]:

    - [embeddings-modal/dataset.py]          (module [Dataset])
    - [finetune-quora-embeddings/benchmark.py] (module [Benchmark])
    - [affine-finetune-embeddings/model.py]  (module [Model])

    Python exceptions are values of [exn]; a computation that talks to the
    network or the file system is a function of a [world] that returns either
    an exception or a value, together with the new world. *)

From Stdlib Require Import Reals Lra Lia ZArith List Floats.
From stdpp Require Import base gmap sets list strings pretty.

Set Warnings "-clear-no-such-hyp,-inexact-float".

Open Scope Z_scope.

(** ** Python exceptions and the state-and-error monad *)

Module Py.

Inductive exn : Type :=
| HTTPError (status : Z)
| AttributeError (attr : string)
| ValueError (msg : string)
| KeyError (key : string)
| TypeError (msg : string)
| IndexError (msg : string)
| RuntimeError (msg : string)
| AssertionError (msg : string).

(** [M W A]: a computation over a world [W] that raises or returns. *)
Definition M (W A : Type) : Type := W -> (exn + A) * W.

Definition ret {W A} (a : A) : M W A := fun w => (inr a, w).

Definition raise {W A} (e : exn) : M W A := fun w => (inl e, w).

Definition bind {W A B} (c : M W A) (k : A -> M W B) : M W B :=
  fun w =>
    match c w with
    | (inl e, w') => (inl e, w')
    | (inr a, w') => k a w'
    end.

(** Pure code that may raise: [exn + A], with its bind. *)
Definition ebind {A B} (c : exn + A) (k : A -> exn + B) : exn + B :=
  match c with
  | inl e => inl e
  | inr a => k a
  end.

(** Run a list of fallible steps in order, stopping at the first that raises. *)
Fixpoint emap {A B} (f : A -> exn + B) (l : list A) : exn + list B :=
  match l with
  | [] => inr []
  | a :: l => ebind (f a) (fun b => ebind (emap f l) (fun bs => inr (b :: bs)))
  end.

(** A [dict] with string keys, in insertion order. *)
Definition pydict (V : Type) : Type := list (string * V).

(** [d[k] = v]: replace the value of an existing key in place, else append. *)
Fixpoint dict_set {V} (k : string) (v : V) (d : pydict V) : pydict V :=
  match d with
  | [] => [(k, v)]
  | (k', v') :: d => if String.eqb k' k then (k', v) :: d else (k', v') :: dict_set k v d
  end.

Definition dict_keys {V} (d : pydict V) : list string := map fst d.

(** A float literal of the source: its value and the text [str()] gives for
    it (for 0.3, 0.5 and 0.7, the literal's own digits). *)
Record pyfloat : Type := { value : float; str : string }.

End Py.

Import Py.

Notation "'let!' x ':=' c 'in' k" := (bind c (fun x => k))
  (at level 10, x pattern, c at level 100, k at level 200).
Notation "'try!' x ':=' c 'in' k" := (ebind c (fun x => k))
  (at level 10, x pattern, c at level 100, k at level 200).
Notation "'do!' c 'in' k" := (bind c (fun _ => k))
  (at level 10, c at level 100, k at level 200).

(** ** applications/embeddings-modal/dataset.py *)

Module Dataset.

(** An embedding as the endpoint's JSON carries it: a list of doubles. *)
Definition embedding : Type := list float.

(** The HTTP response of the endpoint: its status and, in the body,
    [json()["data"]] as the list of the items' ["embedding"] fields. *)
Record response : Type := { status_code : Z; data : list embedding }.

(** A dataset row; only its ['text'] column is read. *)
Record item : Type := { text : string }.

(** What the variable [embeddings] of [main] can hold. *)
Inductive pyval : Type :=
| PyNone
| PyLinear (es : list (list embedding)).

(** The world of the script: the requests posted so far (oldest first) and
    the files written. *)
Record world : Type := { sent : list (list string); files : gmap string pyval }.

Definition EXCEL_FILE : string := "embeddings.xlsx".
Definition FEATURE_FLAG : string := "BATCH".
Definition BATCH_SIZE : Z := 20.

Section Endpoint.

(** The remote endpoint: its answer to the [n]-th request (counted from 0)
    with the given texts. *)
Variable endpoint : nat -> list string -> response.

(** [requests.post(MODAL_ENDPOINT, json={"input": texts})]: the request is
    logged and the endpoint's response comes back (a transport that fails
    before any response is not part of the model). *)
Definition post (texts : list string) : M world response :=
  fun w =>
    (inr (endpoint (length (sent w)) texts),
     {| sent := sent w ++ [texts]; files := files w |}).

(** [response.raise_for_status()]: 4xx and 5xx raise. *)
Definition raise_for_status (r : response) : M world unit :=
  if (400 <=? status_code r) && (status_code r <? 600)
  then raise (HTTPError (status_code r))
  else ret tt.

Definition get_embeddings_batch (texts : list string) : M world (list embedding) :=
  let! r := post texts in
  do! raise_for_status r in
  ret (data r).

(** The [for] loop of [process_dataset_batch], with its two locals. *)
Fixpoint process_dataset_batch_loop (batch_size : Z) (dataset : list item)
    (embeddings : list embedding) (batch_texts : list string)
    : M world (list embedding * list string) :=
  match dataset with
  | [] => ret (embeddings, batch_texts)
  | it :: rest =>
      let batch_texts := batch_texts ++ [text it] in
      if Z.of_nat (length batch_texts) =? batch_size then
        let! batch_embeddings := get_embeddings_batch batch_texts in
        process_dataset_batch_loop batch_size rest (embeddings ++ batch_embeddings) []
      else
        process_dataset_batch_loop batch_size rest embeddings batch_texts
  end.

(** The function has no [return]: its value is [None]. *)
Definition process_dataset_batch (dataset : list item) (batch_size : Z) : M world pyval :=
  do! process_dataset_batch_loop batch_size dataset [] [] in
  ret PyNone.

(** [@benchmark] only times the call and prints; the result is the wrapped
    function's. *)
Definition get_embeddings_linear (texts : list string) : M world (list embedding) :=
  let! r := post texts in
  do! raise_for_status r in
  ret (data r).

(** The loop of [process_dataset_linear]; [i] is the index [enumerate] gives. *)
Fixpoint process_dataset_linear_loop (i : nat) (dataset : list item)
    (embeddings : list (list embedding)) : M world (list (list embedding)) :=
  match dataset with
  | [] => ret embeddings
  | it :: rest =>
      if (100 <=? i)%nat then ret embeddings
      else
        let! e := get_embeddings_linear [text it] in
        process_dataset_linear_loop (S i) rest (embeddings ++ [e])
  end.

Definition process_dataset_linear (dataset : list item) : M world (list (list embedding)) :=
  process_dataset_linear_loop 0 dataset [].

(** The attributes of the [pandas] module that matter here: the frame
    constructor is [DataFrame]; any other name raises [AttributeError]. *)
Definition pandas_getattr (name : string) : option (pyval -> pyval) :=
  if String.eqb name "DataFrame" then Some (fun d => d) else None.

(** [df.to_excel(EXCEL_FILE, index=False)] *)
Definition to_excel (df : pyval) (path : string) : M world unit :=
  fun w => (inr tt, {| sent := sent w; files := <[path := df]> (files w) |}).

Definition save_to_excel (d : pyval) : M world unit :=
  match pandas_getattr "dataframe" with
  | None => raise (AttributeError "dataframe")
  | Some mk => to_excel (mk d) EXCEL_FILE
  end.

(** [main], as a function of the feature flag and of the loaded dataset. *)
Definition main_with (flag : string) (dataset : list item) : M world unit :=
  let! embeddings :=
    (if String.eqb flag "BATCH" then process_dataset_batch dataset BATCH_SIZE
     else if String.eqb flag "LINEAR" then
       let! es := process_dataset_linear dataset in ret (PyLinear es)
     else raise (ValueError "Invalid feature flag. Choose 'BATCH' or 'LINEAR'")) in
  save_to_excel embeddings.

Definition main (dataset : list item) : M world unit :=
  main_with FEATURE_FLAG dataset.

End Endpoint.

Definition init : world := {| sent := []; files := ∅ |}.

(** A response that [raise_for_status] lets through. *)
Definition ok_status (r : response) : Prop :=
  status_code r < 400 \/ 600 <= status_code r.

(** The responses to the requests [reqs], sent from request number [n] on. *)
Fixpoint responses (endpoint : nat -> list string -> response) (n : nat)
    (reqs : list (list string)) : list response :=
  match reqs with
  | [] => []
  | q :: reqs => endpoint n q :: responses endpoint (S n) reqs
  end.

(** The requests a computation adds to the ones already sent. *)
Definition new_requests (w w' : world) : list (list string) :=
  drop (length (sent w)) (sent w').

(** An endpoint that answers 200 with one one-dimensional embedding per text. *)
Definition endpoint_ok : nat -> list string -> response :=
  fun _ texts => {| status_code := 200; data := map (fun _ => [0.5%float]) texts |}.

Definition five_items : list item :=
  [ {| text := "a" |}; {| text := "b" |}; {| text := "c" |};
    {| text := "d" |}; {| text := "e" |} ].

(** An endpoint that answers 200 except to request number [k], which gets
    a 500 without embeddings. *)
Definition endpoint_fails_at (k : nat) : nat -> list string -> response :=
  fun n texts =>
    if (n =? k)%nat then {| status_code := 500; data := [] |}
    else {| status_code := 200; data := map (fun _ => [0.5%float]) texts |}.

End Dataset.

(** ** applications/finetune-quora-embeddings/benchmark.py *)

Module Benchmark.

(** A row of the test split: [row["questions"]["text"]] holds the two
    questions of the pair, [row["is_duplicate"]] the label. *)
Record row : Type := { questions_text : string * string; is_duplicate : bool }.

(** The locals of the generator [get_unique_sentences], the dictionary it
    fills in place, and the batches it has yielded so far. *)
Record gen_state : Type := {
  seen : gset string;
  batch : list string;
  sentence_to_id_mapping : gmap string nat;
  yielded : list (list string)
}.

(** One [if s not in seen: ...] block of the loop body. *)
Definition visit (batch_size : Z) (s : string) (st : gen_state) : gen_state :=
  if decide (s ∈ seen st) then st
  else
    let mapping' := <[s := size (seen st)]> (sentence_to_id_mapping st) in
    let seen' := seen st ∪ {[s]} in
    let batch' := batch st ++ [s] in
    if Z.of_nat (length batch') =? batch_size
    then {| seen := seen'; batch := []; sentence_to_id_mapping := mapping';
            yielded := yielded st ++ [batch'] |}
    else {| seen := seen'; batch := batch'; sentence_to_id_mapping := mapping';
            yielded := yielded st |}.

Definition visit_row (batch_size : Z) (st : gen_state) (r : row) : gen_state :=
  let '(s1, s2) := questions_text r in
  visit batch_size s2 (visit batch_size s1 st).

(** The generator run to exhaustion, as every caller runs it: the batches it
    yields, in order, and the dictionary as it leaves it. *)
Definition get_unique_sentences (test_dataset : list row)
    (mapping : gmap string nat) (batch_size : Z)
    : list (list string) * gmap string nat :=
  let st := fold_left (visit_row batch_size) test_dataset
              {| seen := ∅; batch := []; sentence_to_id_mapping := mapping;
                 yielded := [] |} in
  (yielded st ++ (if batch st is [] then [] else [batch st]),
   sentence_to_id_mapping st).

(** The three lists [extract_unique_sentences] returns; a sentence missing
    from the dictionary raises [KeyError]. *)
Fixpoint extract_unique_sentences (test_dataset : list row)
    (mapping : gmap string nat) : exn + (list nat * list nat * list Z) :=
  match test_dataset with
  | [] => inr ([], [], [])
  | r :: rest =>
      let '(s1, s2) := questions_text r in
      match mapping !! s1 with
      | None => inl (KeyError s1)
      | Some i =>
          match mapping !! s2 with
          | None => inl (KeyError s2)
          | Some j =>
              match extract_unique_sentences rest mapping with
              | inl e => inl e
              | inr (e1, e2, labels) =>
                  inr (i :: e1, j :: e2, (if is_duplicate r then 1 else 0) :: labels)
              end
          end
      end
  end.

(** The sentences of a dataset in reading order: both questions of each
    row. *)
Definition sentences (test_dataset : list row) : list string :=
  flat_map (fun r => [fst (questions_text r); snd (questions_text r)]) test_dataset.

(** A list without its repetitions: each element once, at the place of its
    first occurrence. *)
Fixpoint first_occurrences (l : list string) : list string :=
  match l with
  | [] => []
  | x :: l => x :: filter (fun y => y <> x) (first_occurrences l)
  end.

(** The generator's invariant after reading the sentences [l]: what it has
    handed out or holds in [batch] is [l] without repetitions, [seen] is that
    list as a set, ids are positions in it, and [batch] is not yet full. *)
Definition gen_inv (batch_size : Z) (mapping0 : gmap string nat)
    (l : list string) (st : gen_state) : Prop :=
  let done := concat (yielded st) ++ batch st in
  done = first_occurrences l /\
  seen st = list_to_set done /\
  NoDup done /\
  (forall i s, done !! i = Some s -> sentence_to_id_mapping st !! s = Some i) /\
  (forall s, s ∉ done -> sentence_to_id_mapping st !! s = mapping0 !! s) /\
  Z.of_nat (length (batch st)) < batch_size.

(** An embedding as the providers return it. *)
Definition embedding : Type := list float.

Definition MODELS : list string :=
  [ "BAAI/bge-base-en-v1.5"; "llmrails/ember-v1"; "thenlper/gte-large";
    "infgrad/stella-base-en-v2"; "sentence-transformers/gtr-t5-large" ].

Definition THRESHOLDS : list pyfloat :=
  [ {| value := 0.3; str := "0.3" |};
    {| value := 0.5; str := "0.5" |};
    {| value := 0.7; str := "0.7" |} ].

(** A metric over true labels and predicted labels, and one over true labels
    and scores. *)
Definition label_metric : Type := list Z -> list Z -> float.
Definition score_metric : Type := list Z -> list float -> float.

(** The object [client.embeddings.create] returns; [response.data] is read
    as the list of the items' [embedding] fields.  The object is not a sized
    container. *)
Record CreateEmbeddingResponse : Type := { response_data : list embedding }.

(** The object [co.embed] returns. *)
Record CohereResponse : Type := { embeddings : list embedding }.

(** [len(response)] on the OpenAI response object. *)
Definition len_response (response : CreateEmbeddingResponse) : exn + nat :=
  inl (TypeError "object of type 'CreateEmbeddingResponse' has no len()").

(** [for item in items: assert len(item) == dim; res.append(item)] *)
Fixpoint check_dims (dim : nat) (items res : list embedding) : exn + list embedding :=
  match items with
  | [] => inr res
  | item :: items =>
      if (length item =? dim)%nat then check_dims dim items (res ++ [item])
      else inl (AssertionError "")
  end.

(** The body of [benchmark_openai.embed_text] after the call: the checks on
    the response.  A failed [assert] first builds its message. *)
Definition embed_text_openai (outcome : exn + CreateEmbeddingResponse)
    (texts : list string) : exn + list embedding :=
  try! response := outcome in
  if (length (response_data response) =? length texts)%nat then
    check_dims 1536 (response_data response) []
  else
    try! n := len_response response in
    inl (AssertionError ("Response was " +:+ pretty n +:+ " when " +:+
                         pretty (length texts) +:+ " entities were passed in")).

(** The body of [benchmark_cohere_roc.embed_text] after the call. *)
Definition embed_text_cohere (outcome : exn + CohereResponse)
    (texts : list string) : exn + list embedding :=
  try! response := outcome in
  if (length (embeddings response) =? length texts)%nat then
    try! _ := check_dims 1024 (embeddings response) [] in
    inr (embeddings response)
  else inl (AssertionError "").

(** [await asyncio.gather] over the coroutines, by its value, given what each coroutine
    ends with: the results in the order of the coroutines, or an exception
    when one raised. *)
Definition gather {A} (outcomes : list (exn + A)) : exn + list A :=
  emap (fun o => o) outcomes.

(** [embedding_layer(torch.as_tensor(ids))]: the rows of the table at the
    given indices. *)
Definition embedding_layer (table : list embedding) (ids : list nat)
    : exn + list embedding :=
  emap (fun i => match table !! i with
                 | Some e => inr e
                 | None => inl (IndexError "index out of range in self")
                 end) ids.

(** [[embed_text(sentence_group, bar) for sentence_group in sentences]], each
    coroutine by what it ends with. *)
Definition openai_coros (client : nat -> list string -> exn + CreateEmbeddingResponse)
    (sentences : list (list string)) : list (exn + list embedding) :=
  imap (fun i texts => embed_text_openai (client i texts) texts) sentences.

Definition cohere_coros (co : nat -> list string -> exn + CohereResponse)
    (sentences : list (list string)) : list (exn + list embedding) :=
  imap (fun i texts => embed_text_cohere (co i texts) texts) sentences.

(** [asyncio.Semaphore(20)] in [benchmark_openai], [asyncio.Semaphore(64)]
    in [benchmark_cohere_roc]. *)
Definition OPENAI_SEMAPHORE : nat := 20.
Definition COHERE_SEMAPHORE : nat := 64.

(** *** The event loop of [benchmark_openai] and [benchmark_cohere_roc]

    [asyncio.gather] runs one task per coroutine [embed_text(batch)].  A task
    waits for the semaphore, holds it while its API call is in flight, and
    releases it when it leaves [async with sem], with a result or with an
    exception.  [gather] hands the results back, in the order of the
    coroutines, once every task has one; the first exception is raised in
    the awaiting function at once. *)

Inductive task : Type :=
| Pending
| InFlight
| Finished (outcome : exn + list embedding).

(** Where the awaiting benchmark function stands. *)
Inductive awaiting : Type :=
| Gathering
| Raised (e : exn)
| Returned (res : list (list embedding)).

Record loop : Type := { sem : nat; tasks : list task; caller : awaiting }.

Definition is_in_flight (t : task) : bool :=
  match t with InFlight => true | _ => false end.

(** The number of API calls in flight. *)
Definition in_flight (ts : list task) : nat := length (filter is_in_flight ts).

Definition initial (limit n : nat) : loop :=
  {| sem := limit; tasks := replicate n Pending; caller := Gathering |}.

Section EventLoop.

(** What the body of each coroutine ends with once its response has
    arrived, by the coroutine's number. *)
Variable outcomes : list (exn + list embedding).

Inductive step : loop -> loop -> Prop :=
| step_acquire i n ts c :
    ts !! i = Some Pending ->
    step {| sem := S n; tasks := ts; caller := c |}
         {| sem := n; tasks := <[i := InFlight]> ts; caller := c |}
| step_release i n ts c o :
    ts !! i = Some InFlight ->
    outcomes !! i = Some o ->
    step {| sem := n; tasks := ts; caller := c |}
         {| sem := S n; tasks := <[i := Finished o]> ts;
            caller := match c, o with
                      | Gathering, inl e => Raised e
                      | _, _ => c
                      end |}
| step_return n res :
    step {| sem := n; tasks := map (fun r => Finished (inr r)) res; caller := Gathering |}
         {| sem := n; tasks := map (fun r => Finished (inr r)) res; caller := Returned res |}.

Inductive reachable (limit : nat) : loop -> Prop :=
| reachable_initial : reachable limit (initial limit (length outcomes))
| reachable_step st st' : reachable limit st -> step st st' -> reachable limit st'.

(** What holds of every state of a run. *)
Definition loop_inv (limit : nat) (st : loop) : Prop :=
  (sem st + in_flight (tasks st))%nat = limit /\
  length (tasks st) = length outcomes /\
  (forall i o, tasks st !! i = Some (Finished o) -> outcomes !! i = Some o) /\
  match caller st with
  | Gathering => True
  | Raised e => exists i, outcomes !! i = Some (inl e)
  | Returned res => tasks st = map (fun r => Finished (inr r)) res
  end.

End EventLoop.

(** The 0/1 duplicate labels of the test split. *)
Definition test_labels (test_dataset : list row) : list Z :=
  map (fun r => if is_duplicate r then 1 else 0) test_dataset.

Section Providers.

(** The metric library ([sklearn.metrics]), the pairwise cosine score of
    [sentence_transformers.util], and [threshold_decorator] of the module
    [evals], which is not part of the sources at hand. *)
Variables (accuracy_score precision_score recall_score : label_metric).
Variable roc_auc_score : score_metric.
Variable threshold_decorator : float -> label_metric -> score_metric.
Variable cos_sim : embedding -> embedding -> float.

Definition METRICS : pydict label_metric :=
  [ ("accuracy", accuracy_score);
    ("precision", precision_score);
    ("recall", recall_score) ].

(** The module-level loop over [itertools.product(THRESHOLDS, METRICS.keys())]
    ([METRICS[metric_name]] is the value stored under the key), then the
    ["AUC"] entry. *)
Definition EVALS : pydict score_metric :=
  dict_set "AUC" roc_auc_score
    (fold_left
       (fun evals '(threshold, (metric_name, metric)) =>
          dict_set (metric_name +:+ " (" +:+ str threshold +:+ ")")
                   (threshold_decorator (value threshold) metric) evals)
       (list_prod THRESHOLDS METRICS) []).

(** [{name: f(labels, predictions) for name, f in EVALS.items()}] *)
Definition evaluate (labels : list Z) (predictions : list float) : pydict float :=
  fold_left (fun d '(name, f) => dict_set name (f labels predictions) d) EVALS [].

(** [np.diag(util.cos_sim(a, b))]: the score of each row of [a] with the
    same row of [b]. *)
Definition diag_cos_sim (a b : list embedding) : list float := zip_with cos_sim a b.

(** What the three benchmarks share: from the table of embeddings (one row
    per unique sentence) to the metric scores. *)
Definition score (test_dataset : list row) (mapping : gmap string nat)
    (table : list embedding) : exn + pydict float :=
  try! extracted := extract_unique_sentences test_dataset mapping in
  let '(elem_1, elem_2, labels) := extracted in
  try! embedding_1 := embedding_layer table elem_1 in
  try! embedding_2 := embedding_layer table elem_2 in
  inr (evaluate labels (diag_cos_sim embedding_1 embedding_2)).

(** A result of [score]: every metric of [EVALS] applied to the test labels
    and to one cosine score per row. *)
Definition scored (test_dataset : list row) (evals : pydict float) : Prop :=
  exists predictions,
    length predictions = length test_dataset /\
    evals = evaluate (test_labels test_dataset) predictions.

(** [benchmark_mteb_model], given the loaded model's [encode]. *)
Definition benchmark_mteb_model (encode : list string -> list embedding)
    (test_dataset : list row) : exn + pydict float :=
  let (sentences, mapping) := get_unique_sentences test_dataset ∅ 5000 in
  let embeddings := flat_map encode sentences in
  score test_dataset mapping embeddings.

(** [benchmark_openai], given the outcome of the API call of each coroutine
    (numbered in the order of the batches). *)
Definition benchmark_openai (client : nat -> list string -> exn + CreateEmbeddingResponse)
    (test_dataset : list row) : exn + pydict float :=
  let (sentences, mapping) := get_unique_sentences test_dataset ∅ 128 in
  let coros := openai_coros client sentences in
  try! res := gather coros in
  let flattened_res := concat res in
  score test_dataset mapping flattened_res.

Definition benchmark_cohere_roc (co : nat -> list string -> exn + CohereResponse)
    (test_dataset : list row) : exn + pydict float :=
  let (sentences, mapping) := get_unique_sentences test_dataset ∅ 96 in
  let coros := cohere_coros co sentences in
  try! res := gather coros in
  let flattened_res := concat res in
  score test_dataset mapping flattened_res.

(** The files [main] can write: a path to the JSON object dumped there. *)
Definition fs : Type := gmap string (pydict (pydict float)).

Definition json_dump (res : pydict (pydict float)) (path : string) : M fs unit :=
  fun files => (inr tt, <[path := res]> files).

Definition lift {A} (c : exn + A) : M fs A := fun files => (c, files).

(** [main], given the providers and the test split the remote functions
    load. *)
Definition main (client : nat -> list string -> exn + CreateEmbeddingResponse)
    (co : nat -> list string -> exn + CohereResponse)
    (encode : string -> list string -> list embedding)
    (test_dataset : list row) : M fs unit :=
  let res := [] in
  let! evals := lift (benchmark_openai client test_dataset) in
  let res := dict_set "text-embeddings-ada-v2" evals res in
  let! evals := lift (benchmark_cohere_roc co test_dataset) in
  let res := dict_set "embed-multilingual-v3.0" evals res in
  let! outputs :=
    lift (emap (fun model_name => benchmark_mteb_model (encode model_name) test_dataset)
               MODELS) in
  let res := fold_left (fun res '(model_name, evals) => dict_set model_name evals res)
               (zip MODELS outputs) res in
  json_dump res "results.json".

End Providers.

(** The keys of a benchmark result as the specification names them: the
    three thresholded metrics at each of the three thresholds, and the AUC. *)
Definition EVAL_KEYS : list string :=
  [ "accuracy (0.3)"; "precision (0.3)"; "recall (0.3)";
    "accuracy (0.5)"; "precision (0.5)"; "recall (0.5)";
    "accuracy (0.7)"; "precision (0.7)"; "recall (0.7)"; "AUC" ].

(** Providers that answer as documented: one embedding per text, of the
    model's dimension. *)
Definition openai_well_formed
    (client : nat -> list string -> exn + CreateEmbeddingResponse) : Prop :=
  forall i texts, exists response,
    client i texts = inr response /\
    length (response_data response) = length texts /\
    Forall (fun e => length e = 1536%nat) (response_data response).

Definition cohere_well_formed
    (co : nat -> list string -> exn + CohereResponse) : Prop :=
  forall i texts, exists response,
    co i texts = inr response /\
    length (embeddings response) = length texts /\
    Forall (fun e => length e = 1024%nat) (embeddings response).

Definition encode_well_formed (encode : list string -> list embedding) : Prop :=
  forall texts, length (encode texts) = length texts.

(** Sample providers: each answers with one constant embedding of the
    model's dimension per text. *)
Definition client_ok : nat -> list string -> exn + CreateEmbeddingResponse :=
  fun _ texts => inr {| response_data := map (fun _ => replicate 1536 0.5%float) texts |}.

Definition co_ok : nat -> list string -> exn + CohereResponse :=
  fun _ texts => inr {| embeddings := map (fun _ => replicate 1024 0.5%float) texts |}.

Definition encode_ok : string -> list string -> list embedding :=
  fun _ texts => map (fun _ => [0.5%float; 0.25%float]) texts.

(** Sample metrics for running [main]: a constant label metric, a constant
    score metric, and a thresholding of the scores before a label metric. *)
Definition metric_one : label_metric := fun _ _ => 1%float.
Definition score_one : score_metric := fun _ _ => 1%float.
Definition threshold_sample : float -> label_metric -> score_metric :=
  fun t metric labels scores =>
    metric labels (map (fun p => if PrimFloat.ltb t p then 1 else 0) scores).
Definition cos_sim_one : embedding -> embedding -> float := fun _ _ => 1%float.

(** A response that carries one embedding where two texts were sent. *)
Definition short_response : list embedding := [replicate 1536 0.5%float].

(** Sample providers whose every call raises. *)
Definition client_down : nat -> list string -> exn + CreateEmbeddingResponse :=
  fun _ _ => inl (RuntimeError "Connection error.").

Definition co_down : nat -> list string -> exn + CohereResponse :=
  fun _ _ => inl (RuntimeError "Connection error.").

(** A small test split: four pairs over five distinct questions. *)
Definition four_rows : list row :=
  [ {| questions_text := ("a", "b"); is_duplicate := true |};
    {| questions_text := ("b", "c"); is_duplicate := false |};
    {| questions_text := ("a", "d"); is_duplicate := false |};
    {| questions_text := ("e", "e"); is_duplicate := true |} ].

End Benchmark.

(** ** applications/affine-finetune-embeddings/model.py

    Tensors hold real numbers here: the model states what the layer computes
    in exact arithmetic, not how float32 rounds it.  The random draw of a
    dropout call is an argument: [mask i j] tells whether element [j] of row
    [i] is kept. *)

Module Model.

Local Open Scope R_scope.

Definition vec : Type := list R.

(** A two-dimensional tensor: a batch of rows. *)
Definition tensor : Type := list vec.

(** The hyperparameters and the parameter of [SimilarityModel]: [matrix] has
    [embedding_size] rows and [n_dims] columns. *)
Record SimilarityModel : Type := {
  embedding_size : nat;
  n_dims : nat;
  matrix : nat -> nat -> R;
  dropout_fraction : R;
  lr : R;
  use_relu : bool
}.

(** [F.relu] on the matrix. *)
Definition relu (m : nat -> nat -> R) : nat -> nat -> R := fun i j => Rmax 0 (m i j).

(** [F.dropout(x, p)] with its default [training=True]: [p] outside [0, 1]
    raises; [p = 0] returns the input; otherwise an element is zeroed or,
    when kept, scaled by [1 / (1 - p)]. *)
Definition dropout (mask : nat -> nat -> bool) (p : R) (x : tensor) : exn + tensor :=
  if Rlt_dec p 0 then
    inl (ValueError "dropout probability has to be between 0 and 1")
  else if Rlt_dec 1 p then
    inl (ValueError "dropout probability has to be between 0 and 1")
  else if Req_dec_T p 0 then inr x
  else inr (imap (fun i row => imap (fun j v => if mask i j then v / (1 - p) else 0) row) x).

Definition sum_list (l : list R) : R := fold_right Rplus 0 l.

(** Row [x] times the matrix: entry [j] is the sum over [k] of
    [x_k * m k j]. *)
Definition vec_mat (rows cols : nat) (x : vec) (m : nat -> nat -> R) : vec :=
  map (fun j => sum_list (map (fun k => nth k x 0 * m k j) (seq 0 rows))) (seq 0 cols).

(** [e @ matrix]: every row of [e] must have as many entries as the matrix
    has rows. *)
Definition matmul (rows cols : nat) (e : tensor) (m : nat -> nat -> R) : exn + tensor :=
  if forallb (fun x => (length x =? rows)%nat) e
  then inr (map (fun x => vec_mat rows cols x m) e)
  else inl (RuntimeError "mat1 and mat2 shapes cannot be multiplied").

Definition dot (x y : vec) : R := sum_list (zip_with Rmult x y).

(** The magnitude of a vector. *)
Definition norm (x : vec) : R := R_sqrt.sqrt (dot x x).

(** The default [eps] of [F.cosine_similarity]. *)
Definition eps : R := / 100000000.

(** Two batches broadcast along the batch dimension: equal sizes, or one of
    them a single row that is repeated. *)
Definition broadcast (a b : tensor) : exn + tensor * tensor :=
  if (length a =? length b)%nat then inr (a, b)
  else match a, b with
       | [x], _ => inr (replicate (length b) x, b)
       | _, [y] => inr (a, replicate (length a) y)
       | _, _ => inl (RuntimeError "The size of tensor a must match the size of tensor b")
       end.

(** [F.cosine_similarity(a, b)] (on [dim=1], [eps=1e-8]): each magnitude is
    clamped from below by [eps]. *)
Definition cosine_similarity (a b : tensor) : exn + list R :=
  try! ab := broadcast a b in
  inr (zip_with (fun x y => dot x y / (Rmax (norm x) eps * Rmax (norm y) eps))
                (fst ab) (snd ab)).

(** [similarity.unsqueeze(-1)] *)
Definition unsqueeze (s : list R) : tensor := map (fun v => [v]) s.

(** The matrix the forward pass multiplies by. *)
Definition projection (model : SimilarityModel) : nat -> nat -> R :=
  if use_relu model then relu (matrix model) else matrix model.

Definition forward (model : SimilarityModel) (mask_1 mask_2 : nat -> nat -> bool)
    (embedding_1 embedding_2 : tensor) : exn + tensor :=
  try! e1 := dropout mask_1 (dropout_fraction model) embedding_1 in
  try! e2 := dropout mask_2 (dropout_fraction model) embedding_2 in
  let matrix := projection model in
  try! modified_embedding_1 := matmul (embedding_size model) (n_dims model) e1 matrix in
  try! modified_embedding_2 := matmul (embedding_size model) (n_dims model) e2 matrix in
  try! similarity := cosine_similarity modified_embedding_1 modified_embedding_2 in
  inr (unsqueeze similarity).

Definition encode (model : SimilarityModel) (mask : nat -> nat -> bool)
    (embedding : tensor) : exn + tensor :=
  try! e := dropout mask (dropout_fraction model) embedding in
  let matrix := projection model in
  matmul (embedding_size model) (n_dims model) e matrix.

Definition sigmoid (x : R) : R := / (1 + exp (- x)).

(** [F.binary_cross_entropy_with_logits(input, target, pos_weight=w,
    reduction="mean")] on tensors of one shape: the mean over all elements
    of [-(w * y * log(sigmoid x) + (1 - y) * log(1 - sigmoid x))]. *)
Definition binary_cross_entropy_with_logits (input target : tensor) (pos_weight : R) : R :=
  let losses :=
    zip_with (fun x y => - (pos_weight * y * ln (sigmoid x) +
                            (1 - y) * ln (1 - sigmoid x)))
             (concat input) (concat target) in
  sum_list losses / INR (length losses).

(** [torch.ones(similarity.shape)] *)
Definition ones_like (t : tensor) : tensor := map (map (fun _ => 1)) t.

(** [embedding_1, embedding_2 = batch] *)
Definition unpack (batch : list tensor) : exn + tensor * tensor :=
  match batch with
  | [embedding_1; embedding_2] => inr (embedding_1, embedding_2)
  | _ :: _ :: _ :: _ => inl (ValueError "too many values to unpack (expected 2)")
  | _ => inl (ValueError "not enough values to unpack (expected 2)")
  end.

(** The loss of a step: what [training_step] returns and logs as
    ["train_loss"]. *)
Definition training_step (model : SimilarityModel) (mask_1 mask_2 : nat -> nat -> bool)
    (batch : list tensor) : exn + R :=
  try! es := unpack batch in
  try! similarity := forward model mask_1 mask_2 (fst es) (snd es) in
  let target_similarity := ones_like similarity in
  let pos_weight := 0.89 / 0.11 in
  inr (binary_cross_entropy_with_logits similarity target_similarity pos_weight).

(** The loss [validation_step] computes and logs as ["val_loss"], before it
    logs its metrics. *)
Definition validation_step_loss (model : SimilarityModel)
    (mask_1 mask_2 : nat -> nat -> bool) (batch : list tensor) : exn + R :=
  try! es := unpack batch in
  try! similarity := forward model mask_1 mask_2 (fst es) (snd es) in
  let target_similarity := ones_like similarity in
  let pos_weight := 0.89 / 0.11 in
  inr (binary_cross_entropy_with_logits similarity target_similarity pos_weight).

(** The loss [test_step] computes and logs as ["test_loss"]. *)
Definition test_step_loss (model : SimilarityModel)
    (mask_1 mask_2 : nat -> nat -> bool) (batch : list tensor) : exn + R :=
  try! es := unpack batch in
  try! similarity := forward model mask_1 mask_2 (fst es) (snd es) in
  let target_similarity := ones_like similarity in
  let pos_weight := 0.89 / 0.11 in
  inr (binary_cross_entropy_with_logits similarity target_similarity pos_weight).

(** The cosine similarity of the glossary: the inner product divided by the
    product of the magnitudes. *)
Definition cosine (x y : vec) : R := dot x y / (norm x * norm y).

(** The claimed value of the forward pass on two projected batches: the
    cosine similarity of each pair of rows, with a trailing dimension. *)
Definition cosine_rows (a b : tensor) : exn + tensor :=
  try! ab := broadcast a b in
  inr (unsqueeze (zip_with cosine (fst ab) (snd ab))).

(** A batch of one embedding with the single entry 1e-9. *)
Definition tiny : tensor := [[ / 1000000000 ]].

(** A one-by-one model with the identity as projection and no dropout. *)
Definition identity_model : SimilarityModel :=
  {| embedding_size := 1; n_dims := 1; matrix := fun _ _ => 1;
     dropout_fraction := 0; lr := / 1000; use_relu := false |}.

Definition keep_all : nat -> nat -> bool := fun _ _ => true.

(** Python's exception for a division of a number by zero. *)
Inductive zero_division : Type := ZeroDivisionError.

(** [pred_labels = torch.sigmoid(similarity) > 0.5] *)
Definition pred_labels (similarity : tensor) : list (list bool) :=
  map (map (fun x => if Rlt_dec 0.5 (sigmoid x) then true else false)) similarity.

(** [1 - (sum(pred_labels) / len(pred_labels))], the value [validation_step]
    logs as ["val_removed"]: Python's [sum] adds the rows of the tensor to
    the integer 0, one after the other and entry by entry; without a row the
    sum stays the integer 0 and the division is of 0 by 0. *)
Definition val_removed (similarity : tensor) : zero_division + vec :=
  match pred_labels similarity with
  | [] => inl ZeroDivisionError
  | row :: rows =>
      let total := fold_left (zip_with Z.add) (map (map Z.b2z) rows) (map Z.b2z row) in
      inr (map (fun c => 1 - IZR c / INR (length (row :: rows))) total)
  end.

(** How many similarities are not positive. *)
Definition count_not_positive (s : list R) : nat :=
  length (List.filter (fun x => if Rle_dec x 0 then true else false) s).

End Model.

(** ** applications/sentence-transformers-ft/finetune.py

    The script's own part of [finetune]: the loop that builds the examples,
    run once on the training split and once on the test split.  Loading the
    model, fitting and evaluating are the library's. *)

Module Finetune.

Import Benchmark.

(** [InputExample(texts=[text0, text1], label=is_duplicate)] *)
Record InputExample : Type := { texts : list string; label : Z }.

(** What the loops can raise. *)
Inductive loop_error : Type :=
| ZeroDivisionError
| IndexError.

(** The body of a loop, for the row [dataset[i]]. *)
Definition example (r : row) : InputExample :=
  {| texts := [fst (questions_text r); snd (questions_text r)];
     label := if is_duplicate r then 1 else 0 |}.

(** The loop over the indices [is], appending to [examples]; an index past
    the last row raises. *)
Fixpoint build (dataset : list row) (indices : list nat) (examples : list InputExample)
    : loop_error + list InputExample :=
  match indices with
  | [] => inr examples
  | i :: indices =>
      match dataset !! i with
      | None => inl IndexError
      | Some r => build dataset indices (examples ++ [example r])
      end
  end.

(** [range(n)] for a Python integer [n]. *)
Definition range (n : Z) : list nat := seq 0 (Z.to_nat n).

(** [for i in range(dataset.num_rows // dataset_fraction): ...] *)
Definition build_examples (dataset : list row) (dataset_fraction : Z)
    : loop_error + list InputExample :=
  if dataset_fraction =? 0 then inl ZeroDivisionError
  else build dataset (range (Z.of_nat (length dataset) / dataset_fraction)) [].

End Finetune.

(** * Theorems *)

(** ** Theorems about applications/embeddings-modal/dataset.py *)

Module DatasetFacts.
Import Dataset.

Section Endpoint.

Variable endpoint : nat -> list string -> response.

Lemma get_embeddings_batch_run texts w :
  get_embeddings_batch endpoint texts w =
  (let r := endpoint (length (sent w)) texts in
   if (400 <=? status_code r) && (status_code r <? 600)
   then inl (HTTPError (status_code r)) else inr (data r),
   {| sent := sent w ++ [texts]; files := files w |}).
Proof.
  unfold get_embeddings_batch, bind, post, raise_for_status; simpl.
  destruct ((400 <=? _) && _); reflexivity.
Qed.

Lemma get_embeddings_linear_run texts w :
  get_embeddings_linear endpoint texts w = get_embeddings_batch endpoint texts w.
Proof. reflexivity. Qed.

Lemma concat_length_uniform (b : Z) (reqs : list (list string)) :
  Forall (fun q => Z.of_nat (length q) = b) reqs ->
  Z.of_nat (length (concat reqs)) = b * Z.of_nat (length reqs).
Proof.
  induction 1 as [|q reqs Hq _ IH]; simpl; [lia|].
  rewrite length_app. lia.
Qed.

Lemma responses_app n reqs1 reqs2 :
  responses endpoint n (reqs1 ++ reqs2) =
  responses endpoint n reqs1 ++ responses endpoint (length reqs1 + n) reqs2.
Proof.
  revert n; induction reqs1 as [|q reqs1 IH]; intros n; simpl; [reflexivity|].
  rewrite IH. do 3 f_equal. lia.
Qed.

(** The loop invariant of [process_dataset_batch]: every request is a full
    batch, the requests and the pending texts partition the texts read so
    far, and the accumulated embeddings are the bodies of the responses. *)
Lemma process_dataset_batch_loop_inv b ds :
  forall emb bt w res w',
    Z.of_nat (length bt) < b ->
    process_dataset_batch_loop endpoint b ds emb bt w = (res, w') ->
    exists reqs,
      sent w' = sent w ++ reqs /\
      files w' = files w /\
      Forall (fun q => Z.of_nat (length q) = b) reqs /\
      match res with
      | inr (emb', bt') =>
          concat reqs ++ bt' = bt ++ map text ds /\
          Z.of_nat (length bt') < b /\
          emb' = emb ++ concat (map data (responses endpoint (length (sent w)) reqs)) /\
          Forall ok_status (responses endpoint (length (sent w)) reqs)
      | inl e =>
          (exists rest, concat reqs ++ rest = bt ++ map text ds) /\
          exists rs r, responses endpoint (length (sent w)) reqs = rs ++ [r] /\
                       ~ ok_status r /\ e = HTTPError (status_code r)
      end.
Proof.
  induction ds as [|it rest IH]; intros emb bt w res w' Hbt Hrun.
  - simpl in Hrun. injection Hrun as <- <-. exists []. simpl.
    rewrite !app_nil_r. repeat split; auto.
  - simpl in Hrun.
    destruct (Z.eqb_spec (Z.of_nat (length (bt ++ [text it]))) b) as [Hfull|Hnot].
    + unfold bind in Hrun. rewrite get_embeddings_batch_run in Hrun. cbv zeta in Hrun.
      set (r := endpoint (length (sent w)) (bt ++ [text it])) in *.
      destruct ((400 <=? status_code r) && (status_code r <? 600)) eqn:Hst.
      * injection Hrun as <- <-. exists [bt ++ [text it]]. simpl. rewrite app_nil_r.
        split; [reflexivity|]. split; [reflexivity|]. split; [auto|]. split.
        -- exists (map text rest). rewrite <- app_assoc. reflexivity.
        -- exists [], r. split; [reflexivity|]. split; [|reflexivity].
           unfold ok_status. apply andb_true_iff in Hst. lia.
      * apply IH in Hrun; [|simpl; lia].
        destruct Hrun as (reqs & Hsent & Hfiles & Hall & Hres).
        cbn [sent files] in Hsent, Hfiles, Hres. rewrite !length_app in Hres.
        cbn [length] in Hres.
        replace (length (sent w) + 1)%nat with (S (length (sent w))) in Hres by lia.
        exists ((bt ++ [text it]) :: reqs). simpl responses. fold r.
        split; [rewrite Hsent, <- app_assoc; reflexivity|].
        split; [exact Hfiles|]. split; [auto|].
        destruct res as [e|[emb' bt']].
        -- destruct Hres as [[rest' Hrest] (rs & r0 & Hr0 & Hbad & He)]. split.
           ++ exists rest'. simpl in *. rewrite <- !app_assoc. simpl. rewrite Hrest. reflexivity.
           ++ exists (r :: rs), r0. rewrite Hr0. auto.
        -- destruct Hres as (Hcat & Hlt & Hemb & Hok). simpl in Hcat.
           split; [simpl; rewrite <- !app_assoc; simpl; rewrite Hcat; reflexivity|].
           split; [exact Hlt|]. split.
           ++ rewrite Hemb. simpl. rewrite app_assoc. reflexivity.
           ++ constructor; auto. unfold ok_status.
              apply andb_false_iff in Hst. lia.
    + apply IH in Hrun; [|rewrite length_app in *; simpl in *; lia].
      destruct Hrun as (reqs & Hsent & Hfiles & Hall & Hres).
      exists reqs. split; [exact Hsent|]. split; [exact Hfiles|]. split; [exact Hall|].
      destruct res as [e|[emb' bt']].
      * destruct Hres as [[rest' Hrest] Hbad]. split; auto.
        exists rest'. rewrite Hrest, <- app_assoc. reflexivity.
      * destruct Hres as (Hcat & Hlt & Hemb & Hok). repeat split; auto.
        rewrite Hcat, <- app_assoc. reflexivity.
Qed.

Lemma new_requests_app w w' reqs :
  sent w' = sent w ++ reqs -> new_requests w w' = reqs.
Proof. unfold new_requests. intros ->. apply drop_app_length. Qed.

(** Full chunks that are a prefix of [l] are a prefix of the first
    [b * (|l| / b)] elements of [l]. *)
Lemma full_chunks_prefix (b : Z) (reqs : list (list string)) (rest l : list string) :
  0 < b ->
  Forall (fun q => Z.of_nat (length q) = b) reqs ->
  concat reqs ++ rest = l ->
  concat reqs `prefix_of` take (Z.to_nat (b * (Z.of_nat (length l) / b))) l /\
  (Z.of_nat (length rest) < b ->
   concat reqs = take (Z.to_nat (b * (Z.of_nat (length l) / b))) l /\
   rest = drop (Z.to_nat (b * (Z.of_nat (length l) / b))) l).
Proof.
  intros Hb Hall <-. pose proof (concat_length_uniform b reqs Hall) as Hlen.
  rewrite length_app, Nat2Z.inj_add, Hlen.
  set (k := Z.of_nat (length reqs)) in *. set (r := Z.of_nat (length rest)).
  assert (Hk : 0 <= k) by (subst k; lia). assert (Hr : 0 <= r) by (subst r; lia).
  assert (Hle : b * k <= b * ((b * k + r) / b)).
  { apply Z.mul_le_mono_nonneg_l; [lia|]. apply Z.div_le_lower_bound; lia. }
  split.
  - exists (take (Z.to_nat (b * ((b * k + r) / b)) - length (concat reqs)) rest).
    rewrite take_app. rewrite take_ge by lia. reflexivity.
  - intros Hlt. assert (Hq : (b * k + r) / b = k).
    { symmetry. apply Z.div_unique with (r := r); lia. }
    rewrite Hq. replace (Z.to_nat (b * k)) with (length (concat reqs)) by lia.
    rewrite take_app_length, drop_app_length. auto.
Qed.

(** The loop invariant of [process_dataset_linear]: one request per item,
    in order, for the items before index 100. *)
Lemma process_dataset_linear_loop_inv ds :
  forall i embs w res w',
    process_dataset_linear_loop endpoint i ds embs w = (res, w') ->
    exists reqs,
      sent w' = sent w ++ reqs /\
      files w' = files w /\
      reqs `prefix_of` map (fun it => [text it]) (take (100 - i) ds) /\
      match res with
      | inr embs' =>
          reqs = map (fun it => [text it]) (take (100 - i) ds) /\
          embs' = embs ++ map data (responses endpoint (length (sent w)) reqs)
      | inl e =>
          exists rs r, responses endpoint (length (sent w)) reqs = rs ++ [r] /\
                       ~ ok_status r /\ e = HTTPError (status_code r)
      end.
Proof.
  induction ds as [|it rest IH]; intros i embs w res w' Hrun.
  - simpl in Hrun. injection Hrun as <- <-. exists [].
    rewrite take_nil, !app_nil_r. simpl. repeat split; auto.
  - cbn [process_dataset_linear_loop] in Hrun.
    destruct (Nat.leb_spec 100 i) as [Hstop|Hgo].
    + injection Hrun as <- <-. exists [].
      replace (100 - i)%nat with 0%nat by lia.
      rewrite !app_nil_r. simpl. repeat split; auto.
    + unfold bind in Hrun. rewrite get_embeddings_linear_run, get_embeddings_batch_run in Hrun.
      cbv zeta in Hrun. set (r := endpoint (length (sent w)) [text it]) in *.
      replace (100 - i)%nat with (S (100 - S i)) by lia. simpl take. simpl map.
      destruct ((400 <=? status_code r) && (status_code r <? 600)) eqn:Hst.
      * injection Hrun as <- <-. exists [[text it]]. simpl.
        split; [reflexivity|]. split; [reflexivity|]. split.
        -- apply prefix_cons, prefix_nil.
        -- exists [], r. split; [reflexivity|]. split; [|reflexivity].
           unfold ok_status. apply andb_true_iff in Hst. lia.
      * apply IH in Hrun. destruct Hrun as (reqs & Hsent & Hfiles & Hpre & Hres).
        cbn [sent files] in Hsent, Hfiles, Hres. rewrite length_app in Hres.
        cbn [length] in Hres.
        replace (length (sent w) + 1)%nat with (S (length (sent w))) in Hres by lia.
        exists ([text it] :: reqs). simpl responses. fold r.
        split; [rewrite Hsent, <- app_assoc; reflexivity|].
        split; [exact Hfiles|]. split; [apply prefix_cons; exact Hpre|].
        destruct res as [e|embs'].
        -- destruct Hres as (rs & r0 & Hr0 & Hbad & He).
           exists (r :: rs), r0. rewrite Hr0. auto.
        -- destruct Hres as [-> ->]. split; [reflexivity|].
           simpl. rewrite <- app_assoc. reflexivity.
Qed.

(** C9. For a dataset of length L and a batch size b > 0,
    [process_dataset_batch] posts full batches of b texts only; the texts it
    posts are a prefix of the first b * floor(L / b) texts, and exactly those
    when it returns, so the trailing L mod b texts are never sent (they stay
    in [batch_texts]); its value is [None] although the loop has accumulated
    the embeddings of every response.  It returns whenever no response
    carries an error status. *)
Theorem process_dataset_batch_drops_tail (dataset : list item) (b : Z) (w : world) :
  0 < b ->
  let n := Z.to_nat (b * (Z.of_nat (length dataset) / b)) in
  let out := process_dataset_batch endpoint dataset b w in
  let reqs := new_requests w (snd out) in
  Forall (fun q => Z.of_nat (length q) = b) reqs /\
  concat reqs `prefix_of` take n (map text dataset) /\
  (forall v, fst out = inr v ->
     v = PyNone /\
     concat reqs = take n (map text dataset) /\
     fst (process_dataset_batch_loop endpoint b dataset [] [] w) =
       inr (concat (map data (responses endpoint (length (sent w)) reqs)),
            drop n (map text dataset))) /\
  ((forall k q, ok_status (endpoint k q)) -> fst out = inr PyNone).
Proof.
  intros Hb n out reqs. subst out reqs. unfold process_dataset_batch, bind.
  destruct (process_dataset_batch_loop endpoint b dataset [] [] w) as [res w1] eqn:Hrun.
  destruct (process_dataset_batch_loop_inv b dataset [] [] w res w1) as
    (reqs & Hsent & Hfiles & Hall & Hres); [simpl; lia | exact Hrun |].
  assert (Hnew : new_requests w w1 = reqs) by (apply new_requests_app; exact Hsent).
  destruct res as [e|[emb' bt']]; unfold ret; cbn [fst snd]; rewrite Hnew.
  - destruct Hres as [[rest Hrest] (rs & r & Hrs & Hbad & _)]. simpl in Hrest.
    destruct (full_chunks_prefix b reqs rest _ Hb Hall Hrest) as [Hpre _].
    rewrite length_map in Hpre.
    split; [exact Hall|]. split; [exact Hpre|]. split; [discriminate|].
    intros Hok. exfalso. apply Hbad. clear - Hrs Hok.
    assert (Hin : In r (responses endpoint (length (sent w)) reqs)).
    { rewrite Hrs. apply in_or_app. right. left. reflexivity. }
    clear Hrs. revert Hin. generalize (length (sent w)).
    induction reqs as [|q reqs IH]; simpl; intros k Hin; [contradiction|].
    destruct Hin as [<-|Hin]; eauto.
  - destruct Hres as (Hcat & Hlt & Hemb & Hok). simpl in Hcat.
    destruct (full_chunks_prefix b reqs bt' _ Hb Hall Hcat) as [Hpre Hexact].
    destruct (Hexact Hlt) as [Htake Hdrop]. rewrite length_map in Hpre, Htake, Hdrop.
    split; [exact Hall|]. split; [exact Hpre|]. split; [|reflexivity].
    intros v [= <-]. split; [reflexivity|]. split; [exact Htake|].
    rewrite Hemb. simpl. fold n in Hdrop. rewrite <- Hdrop. reflexivity.
Qed.

Lemma responses_all_ok n reqs :
  (forall k q, ok_status (endpoint k q)) -> Forall ok_status (responses endpoint n reqs).
Proof.
  intros Hok. revert n. induction reqs as [|q reqs IH]; intros n; simpl; constructor; auto.
Qed.

Lemma responses_length n reqs : length (responses endpoint n reqs) = length reqs.
Proof. revert n. induction reqs as [|q reqs IH]; intros n; simpl; auto. Qed.

Lemma process_dataset_batch_loop_returns b ds emb bt w :
  Z.of_nat (length bt) < b ->
  (forall k q, ok_status (endpoint k q)) ->
  exists v, fst (process_dataset_batch_loop endpoint b ds emb bt w) = inr v.
Proof.
  intros Hbt Hok.
  destruct (process_dataset_batch_loop endpoint b ds emb bt w) as [res w1] eqn:Hrun.
  destruct (process_dataset_batch_loop_inv b ds emb bt w res w1 Hbt Hrun)
    as (reqs & _ & _ & _ & Hres).
  destruct res as [e|v]; [|eauto]. exfalso.
  destruct Hres as [_ (rs & r & Hrs & Hbad & _)]. apply Hbad.
  pose proof (responses_all_ok (length (sent w)) reqs Hok) as Hall.
  rewrite Hrs in Hall. apply Forall_app in Hall as [_ Hall].
  inversion Hall; auto.
Qed.

(** C10. [process_dataset_linear] posts one single-text request per item, in
    order, and only for the items before index 100; when it returns, it has
    posted exactly the first min(L, 100) items and its value lists their
    min(L, 100) results, one per item.  It returns whenever no response
    carries an error status. *)
Theorem process_dataset_linear_first_100 (dataset : list item) (w : world) :
  let out := process_dataset_linear endpoint dataset w in
  let reqs := new_requests w (snd out) in
  let first := map (fun it => [text it]) (take 100 dataset) in
  reqs `prefix_of` first /\
  (forall es, fst out = inr es ->
     reqs = first /\
     length es = Nat.min (length dataset) 100 /\
     es = map data (responses endpoint (length (sent w)) first)) /\
  ((forall k q, ok_status (endpoint k q)) -> exists es, fst out = inr es).
Proof.
  intros out reqs first. subst out reqs first. unfold process_dataset_linear.
  destruct (process_dataset_linear_loop endpoint 0 dataset [] w) as [res w1] eqn:Hrun.
  destruct (process_dataset_linear_loop_inv dataset 0 [] w res w1 Hrun) as
    (reqs & Hsent & Hfiles & Hpre & Hres).
  rewrite Nat.sub_0_r in Hpre, Hres. cbn [fst snd].
  rewrite (new_requests_app w w1 reqs Hsent).
  split; [exact Hpre|]. destruct res as [e|embs].
  - split; [discriminate|]. intros Hok. exfalso.
    destruct Hres as (rs & r & Hrs & Hbad & _). apply Hbad.
    pose proof (responses_all_ok (length (sent w)) reqs Hok) as Hall.
    rewrite Hrs in Hall. apply Forall_app in Hall as [_ Hall].
    inversion Hall; auto.
  - destruct Hres as [Hreqs Hembs]. split; [|eauto].
    intros es [= <-]. split; [exact Hreqs|]. simpl in Hembs. subst embs reqs.
    split; [|reflexivity].
    rewrite length_map, responses_length, length_map, length_take. lia.
Qed.

(** C5 (as the code behaves). With the flag ["BATCH"], [main] never writes a
    file: it always ends in an exception, and when every request succeeds the
    exception is the [AttributeError] of [pd.dataframe], raised on the [None]
    that [process_dataset_batch] returned. *)
Theorem main_batch_writes_nothing (dataset : list item) (w : world) :
  let out := main endpoint dataset w in
  files (snd out) = files w /\
  (exists e, fst out = inl e) /\
  ((forall k q, ok_status (endpoint k q)) ->
     fst out = inl (AttributeError "dataframe") /\
     fst (process_dataset_batch endpoint dataset BATCH_SIZE w) = inr PyNone).
Proof.
  intros out. subst out. unfold main, main_with, FEATURE_FLAG.
  change (String.eqb "BATCH" "BATCH") with true. cbv iota.
  pose proof (process_dataset_batch_loop_returns BATCH_SIZE dataset [] [] w) as Hret.
  unfold process_dataset_batch, bind in *.
  destruct (process_dataset_batch_loop endpoint BATCH_SIZE dataset [] [] w)
    as [res w1] eqn:Hrun.
  destruct (process_dataset_batch_loop_inv BATCH_SIZE dataset [] [] w res w1)
    as (reqs & _ & Hfiles & _); [reflexivity | exact Hrun |].
  destruct res as [e|[emb bt]]; cbn [fst snd] in *.
  - split; [exact Hfiles|]. split; [eauto|]. intros Hok.
    destruct Hret as [v Hv]; [reflexivity | exact Hok | discriminate].
  - unfold ret, save_to_excel. simpl. split; [exact Hfiles|]. split; [eauto|]. auto.
Qed.

End Endpoint.

Lemma process_dataset_batch_drops_tail_witness :
  fst (process_dataset_batch endpoint_ok five_items 2 init) = inr PyNone /\
  concat (new_requests init (snd (process_dataset_batch endpoint_ok five_items 2 init)))
    `prefix_of` ["a"; "b"; "c"; "d"].
Proof.
  destruct (process_dataset_batch_drops_tail endpoint_ok five_items 2 init ltac:(lia))
    as (_ & Hpre & _ & Hret).
  split; [|exact Hpre].
  apply Hret. intros k q. unfold ok_status. simpl. lia.
Defined.

Lemma process_dataset_linear_first_100_witness :
  exists es, fst (process_dataset_linear endpoint_ok five_items init) = inr es.
Proof.
  apply (process_dataset_linear_first_100 endpoint_ok five_items init).
  intros k q. unfold ok_status. simpl. lia.
Defined.

(** *** Failed requests *)

Section FailFast.

Variable endpoint : nat -> list string -> response.

(** When the batch loop raises, the response that raised is the last one
    received and every earlier one was accepted. *)
Lemma process_dataset_batch_loop_raises b ds :
  forall emb bt w e w',
    process_dataset_batch_loop endpoint b ds emb bt w = (inl e, w') ->
    exists reqs rs r,
      sent w' = sent w ++ reqs /\
      responses endpoint (length (sent w)) reqs = rs ++ [r] /\
      Forall ok_status rs /\ ~ ok_status r /\ e = HTTPError (status_code r).
Proof.
  induction ds as [|it rest IH]; intros emb bt w e w' Hrun; [discriminate|].
  simpl in Hrun.
  destruct (Z.of_nat (length (bt ++ [text it])) =? b).
  - unfold bind in Hrun. rewrite get_embeddings_batch_run in Hrun. cbv zeta in Hrun.
    set (r := endpoint (length (sent w)) (bt ++ [text it])) in *.
    destruct ((400 <=? status_code r) && (status_code r <? 600)) eqn:Hst.
    + injection Hrun as <- <-. exists [bt ++ [text it]], [], r. simpl.
      repeat split; auto. unfold ok_status. apply andb_true_iff in Hst. lia.
    + apply IH in Hrun. destruct Hrun as (reqs & rs & r0 & Hsent & Hrs & Hok & Hbad & He).
      cbn [sent files] in Hsent, Hrs. rewrite length_app in Hrs. cbn [length] in Hrs.
      replace (length (sent w) + 1)%nat with (S (length (sent w))) in Hrs by lia.
      exists ((bt ++ [text it]) :: reqs), (r :: rs), r0. simpl. fold r.
      rewrite Hsent, Hrs, <- app_assoc. repeat split; auto.
      constructor; auto. unfold ok_status. apply andb_false_iff in Hst. lia.
  - apply IH in Hrun. exact Hrun.
Qed.

Lemma process_dataset_linear_loop_raises ds :
  forall i embs w e w',
    process_dataset_linear_loop endpoint i ds embs w = (inl e, w') ->
    exists reqs rs r,
      sent w' = sent w ++ reqs /\
      responses endpoint (length (sent w)) reqs = rs ++ [r] /\
      Forall ok_status rs /\ ~ ok_status r /\ e = HTTPError (status_code r).
Proof.
  induction ds as [|it rest IH]; intros i embs w e w' Hrun; [discriminate|].
  cbn [process_dataset_linear_loop] in Hrun.
  destruct (100 <=? i)%nat; [discriminate|].
  unfold bind in Hrun. rewrite get_embeddings_linear_run, get_embeddings_batch_run in Hrun.
  cbv zeta in Hrun. set (r := endpoint (length (sent w)) [text it]) in *.
  destruct ((400 <=? status_code r) && (status_code r <? 600)) eqn:Hst.
  - injection Hrun as <- <-. exists [[text it]], [], r. simpl.
    repeat split; auto. unfold ok_status. apply andb_true_iff in Hst. lia.
  - apply IH in Hrun. destruct Hrun as (reqs & rs & r0 & Hsent & Hrs & Hok & Hbad & He).
    cbn [sent files] in Hsent, Hrs. rewrite length_app in Hrs. cbn [length] in Hrs.
    replace (length (sent w) + 1)%nat with (S (length (sent w))) in Hrs by lia.
    exists ([text it] :: reqs), (r :: rs), r0. simpl. fold r.
    rewrite Hsent, Hrs, <- app_assoc. repeat split; auto.
    constructor; auto. unfold ok_status. apply andb_false_iff in Hst. lia.
Qed.



(** X3. Whatever the feature flag, [main] ends in an exception and writes no
    file; with a flag other than "BATCH" and "LINEAR" it raises [ValueError]
    before any request is sent. *)
Theorem main_with_never_writes (flag : string) (dataset : list item) (w : world) :
  files (snd (main_with endpoint flag dataset w)) = files w /\
  (exists e, fst (main_with endpoint flag dataset w) = inl e) /\
  (flag <> "BATCH" -> flag <> "LINEAR" ->
   main_with endpoint flag dataset w =
     (inl (ValueError "Invalid feature flag. Choose 'BATCH' or 'LINEAR'"), w)).
Proof.
  unfold main_with. destruct (String.eqb_spec flag "BATCH") as [->|Hb].
  - unfold process_dataset_batch, bind.
    destruct (process_dataset_batch_loop endpoint BATCH_SIZE dataset [] [] w)
      as [res w1] eqn:Hrun.
    destruct (process_dataset_batch_loop_inv endpoint BATCH_SIZE dataset [] [] w res w1)
      as (reqs & _ & Hfiles & _); [reflexivity | exact Hrun |].
    destruct res as [e|v]; cbn [fst snd].
    + split; [exact Hfiles|]. split; [eauto|]. intros Hne. contradiction.
    + unfold ret, save_to_excel. simpl. split; [exact Hfiles|]. split; [eauto|].
      intros Hne. contradiction.
  - destruct (String.eqb_spec flag "LINEAR") as [->|Hl].
    + unfold bind, process_dataset_linear.
      destruct (process_dataset_linear_loop endpoint 0 dataset [] w) as [res w1] eqn:Hrun.
      destruct (process_dataset_linear_loop_inv endpoint dataset 0 [] w res w1 Hrun)
        as (reqs & _ & Hfiles & _).
      destruct res as [e|es]; cbn [fst snd].
      * split; [exact Hfiles|]. split; [eauto|]. intros _ Hne. contradiction.
      * unfold ret, save_to_excel. simpl. split; [exact Hfiles|]. split; [eauto|].
        intros _ Hne. contradiction.
    + unfold bind, raise. simpl. split; [reflexivity|]. split; [eauto|]. reflexivity.
Qed.

End FailFast.



End DatasetFacts.

(** ** Theorems about applications/finetune-quora-embeddings/benchmark.py *)

Module BenchmarkFacts.
Import Benchmark.

Lemma first_occurrences_elem (l : list string) (x : string) :
  x ∈ first_occurrences l <-> x ∈ l.
Proof.
  induction l as [|y l IH]; simpl; [reflexivity|].
  rewrite !elem_of_cons, list_elem_of_filter, IH.
  destruct (decide (x = y)); naive_solver.
Qed.

Lemma first_occurrences_NoDup (l : list string) : NoDup (first_occurrences l).
Proof.
  induction l as [|y l IH]; simpl; constructor.
  - rewrite list_elem_of_filter. naive_solver.
  - apply NoDup_filter. exact IH.
Qed.

Lemma first_occurrences_snoc (l : list string) (s : string) :
  first_occurrences (l ++ [s]) =
  if decide (s ∈ l) then first_occurrences l else first_occurrences l ++ [s].
Proof.
  induction l as [|x l IH]; simpl.
  - destruct (decide (s ∈ [])) as [H|_]; [inversion H | reflexivity].
  - rewrite IH. destruct (decide (s ∈ l)) as [Hin|Hnin].
    + rewrite decide_True by (right; exact Hin). reflexivity.
    + rewrite filter_app. destruct (decide (s = x)) as [->|Hne].
      * rewrite decide_True by left. rewrite filter_cons_False by auto.
        rewrite filter_nil, app_nil_r. reflexivity.
      * rewrite decide_False by (rewrite elem_of_cons; naive_solver).
        rewrite filter_cons_True by auto. reflexivity.
Qed.

Section Generator.

Variables (batch_size : Z) (mapping0 : gmap string nat).
Hypothesis batch_size_pos : 0 < batch_size.

Lemma gen_inv_visit (l : list string) (s : string) (st : gen_state) :
  gen_inv batch_size mapping0 l st ->
  gen_inv batch_size mapping0 (l ++ [s]) (visit batch_size s st).
Proof.
  unfold gen_inv. cbv zeta. intros (Hdone & Hseen & Hnd & Hids & Hold & Hlen).
  rewrite first_occurrences_snoc. unfold visit.
  assert (Hmem : s ∈ seen st <-> s ∈ l).
  { rewrite Hseen, elem_of_list_to_set, Hdone. apply first_occurrences_elem. }
  destruct (decide (s ∈ seen st)) as [Hin|Hnin].
  { rewrite decide_True by (apply Hmem; exact Hin). auto 10. }
  rewrite decide_False by (rewrite <- Hmem; exact Hnin).
  set (done := concat (yielded st) ++ batch st) in *.
  assert (Hfresh : s ∉ done) by (rewrite Hseen, elem_of_list_to_set in Hnin; exact Hnin).
  assert (Hsize : size (seen st) = length done).
  { rewrite Hseen. apply size_list_to_set. exact Hnd. }
  assert (Hgoal :
    let done' := done ++ [s] in
    done' = first_occurrences l ++ [s] /\
    seen st ∪ {[s]} = list_to_set done' /\
    NoDup done' /\
    (forall i x, done' !! i = Some x ->
       <[s := size (seen st)]> (sentence_to_id_mapping st) !! x = Some i) /\
    (forall x, x ∉ done' ->
       <[s := size (seen st)]> (sentence_to_id_mapping st) !! x = mapping0 !! x)).
  { cbv zeta. split; [rewrite Hdone; reflexivity|]. split.
    { rewrite list_to_set_app_L, Hseen. simpl. set_solver. }
    split.
    { apply NoDup_app. split; [exact Hnd|]. split; [|apply NoDup_singleton].
      intros x Hx Hx'. apply list_elem_of_singleton in Hx'. subst x. auto. }
    split.
    - intros i x Hix. destruct (decide (i < length done)%nat) as [Hlt|Hge].
      + rewrite lookup_app_l in Hix by exact Hlt.
        rewrite lookup_insert_ne; [apply Hids; exact Hix|].
        intros ->. apply Hfresh. apply list_elem_of_lookup. eauto.
      + rewrite lookup_app_r in Hix by lia.
        destruct (i - length done)%nat eqn:Hi; simpl in Hix; [|discriminate].
        injection Hix as <-. rewrite lookup_insert_eq. f_equal. lia.
    - intros x Hx. rewrite elem_of_app, list_elem_of_singleton in Hx.
      rewrite lookup_insert_ne by naive_solver. apply Hold. naive_solver. }
  cbv zeta in Hgoal. destruct Hgoal as (G1 & G2 & G3 & G4 & G5).
  destruct (Z.eqb_spec (Z.of_nat (length (batch st ++ [s]))) batch_size) as [Hfull|Hnot];
    cbn [yielded batch seen sentence_to_id_mapping].
  - replace (concat (yielded st ++ [batch st ++ [s]]) ++ []) with (done ++ [s]).
    + repeat split; auto.
    + subst done. rewrite concat_app. simpl. rewrite !app_nil_r, app_assoc. reflexivity.
  - rewrite app_assoc. fold done. repeat split; auto.
    rewrite length_app in *. simpl in *. lia.
Qed.

Lemma gen_inv_fold (rows : list row) :
  forall l st,
    gen_inv batch_size mapping0 l st ->
    gen_inv batch_size mapping0 (l ++ sentences rows)
      (fold_left (visit_row batch_size) rows st).
Proof.
  induction rows as [|r rows IH]; intros l st Hinv; simpl.
  - rewrite app_nil_r. exact Hinv.
  - unfold sentences in *. simpl.
    replace (l ++ fst (questions_text r) :: snd (questions_text r) ::
               flat_map (fun r => [fst (questions_text r); snd (questions_text r)]) rows)
      with (((l ++ [fst (questions_text r)]) ++ [snd (questions_text r)]) ++
               flat_map (fun r => [fst (questions_text r); snd (questions_text r)]) rows)
      by (rewrite <- !app_assoc; reflexivity).
    apply IH. unfold visit_row. destruct (questions_text r) as [s1 s2]. simpl.
    apply gen_inv_visit, gen_inv_visit, Hinv.
Qed.

End Generator.

(** With every sentence of the rows in the dictionary, at the id of its
    place in [uniq], the extraction returns those ids and the labels. *)
Lemma extract_unique_sentences_ok (uniq : list string) (m : gmap string nat)
    (rows : list row) :
  (forall s, s ∈ sentences rows -> exists i, m !! s = Some i /\ uniq !! i = Some s) ->
  exists e1 e2,
    extract_unique_sentences rows m =
      inr (e1, e2, map (fun r => if is_duplicate r then 1 else 0) rows) /\
    Forall2 (fun r i => uniq !! i = Some (fst (questions_text r))) rows e1 /\
    Forall2 (fun r j => uniq !! j = Some (snd (questions_text r))) rows e2.
Proof.
  induction rows as [|r rows IH]; intros Hall.
  - exists [], []. simpl. auto.
  - destruct IH as (e1 & e2 & Hrun & H1 & H2).
    { intros s Hs. apply Hall. unfold sentences in *. simpl. do 2 right. exact Hs. }
    destruct (Hall (fst (questions_text r))) as (i & Hi & Hui).
    { unfold sentences. simpl. left. }
    destruct (Hall (snd (questions_text r))) as (j & Hj & Huj).
    { unfold sentences. simpl. right. left. }
    exists (i :: e1), (j :: e2). split; [|split; constructor; auto].
    simpl. destruct (questions_text r) as [s1 s2]. simpl in *.
    rewrite Hi, Hj, Hrun. reflexivity.
Qed.

(** The invariant at exhaustion, on the concatenation of what was yielded. *)
Lemma get_unique_sentences_inv (test_dataset : list row)
    (mapping0 : gmap string nat) (batch_size : Z) :
  0 < batch_size ->
  let uniq := concat (fst (get_unique_sentences test_dataset mapping0 batch_size)) in
  let mapping := snd (get_unique_sentences test_dataset mapping0 batch_size) in
  uniq = first_occurrences (sentences test_dataset) /\
  NoDup uniq /\
  (forall i s, uniq !! i = Some s -> mapping !! s = Some i) /\
  (forall s, s ∉ uniq -> mapping !! s = mapping0 !! s).
Proof.
  intros Hpos uniq mapping. subst uniq mapping. unfold get_unique_sentences.
  set (st0 := {| seen := ∅; batch := []; sentence_to_id_mapping := mapping0;
                 yielded := [] |}).
  assert (Hinv0 : gen_inv batch_size mapping0 [] st0).
  { unfold gen_inv. simpl. repeat split; auto; try constructor.
    intros i s Hs. rewrite lookup_nil in Hs. discriminate. }
  pose proof (gen_inv_fold batch_size mapping0 Hpos test_dataset [] st0 Hinv0) as Hinv.
  simpl in Hinv. set (st := fold_left (visit_row batch_size) test_dataset st0) in *.
  cbn [fst snd].
  assert (Hcat : concat (yielded st ++ (if batch st is [] then [] else [batch st])) =
                 concat (yielded st) ++ batch st).
  { rewrite concat_app. destruct (batch st); simpl; rewrite ?app_nil_r; reflexivity. }
  rewrite Hcat. destruct Hinv as (Hdone & Hseen & Hnd & Hids & Hold & Hlen). auto.
Qed.

(** C8. For a positive batch size, once [get_unique_sentences] is exhausted:
    the yielded batches, concatenated, list every distinct sentence of the
    dataset's question pairs exactly once, in order of first appearance; the
    dictionary maps each of them to its index in that list; and
    [extract_unique_sentences] then returns, row by row, the ids of the row's
    two sentences and its 0/1 duplicate label. *)
Theorem get_unique_sentences_ids (test_dataset : list row)
    (mapping0 : gmap string nat) (batch_size : Z) :
  0 < batch_size ->
  let uniq := concat (fst (get_unique_sentences test_dataset mapping0 batch_size)) in
  let mapping := snd (get_unique_sentences test_dataset mapping0 batch_size) in
  uniq = first_occurrences (sentences test_dataset) /\
  NoDup uniq /\
  (forall s, s ∈ uniq <-> s ∈ sentences test_dataset) /\
  (forall i s, uniq !! i = Some s -> mapping !! s = Some i) /\
  exists e1 e2,
    extract_unique_sentences test_dataset mapping =
      inr (e1, e2, map (fun r => if is_duplicate r then 1 else 0) test_dataset) /\
    Forall2 (fun r i => uniq !! i = Some (fst (questions_text r))) test_dataset e1 /\
    Forall2 (fun r j => uniq !! j = Some (snd (questions_text r))) test_dataset e2.
Proof.
  intros Hpos uniq mapping.
  destruct (get_unique_sentences_inv test_dataset mapping0 batch_size Hpos)
    as (Hdone & Hnd & Hids & _).
  fold uniq in Hdone, Hnd, Hids. fold mapping in Hids.
  assert (Hmem : forall s, s ∈ uniq <-> s ∈ sentences test_dataset).
  { intros s. rewrite Hdone. apply first_occurrences_elem. }
  split; [exact Hdone|]. split; [exact Hnd|]. split; [exact Hmem|]. split; [exact Hids|].
  apply extract_unique_sentences_ok. intros s Hs.
  apply Hmem, list_elem_of_lookup in Hs as [i Hi]. eauto.
Qed.

Lemma get_unique_sentences_ids_witness :
  0 < 2 /\
  concat (fst (get_unique_sentences four_rows ∅ 2)) =
    first_occurrences (sentences four_rows) /\
  NoDup (concat (fst (get_unique_sentences four_rows ∅ 2))).
Proof.
  split; [reflexivity|].
  destruct (get_unique_sentences_ids four_rows ∅ 2 eq_refl) as (Huniq & Hnd & _).
  split; [exact Huniq | exact Hnd].
Defined.

(** *** From the embeddings to the scores *)

Lemma emap_length {A B} (f : A -> exn + B) (l : list A) (bs : list B) :
  emap f l = inr bs -> length bs = length l.
Proof.
  revert bs. induction l as [|a l IH]; simpl; intros bs H.
  - injection H as <-. reflexivity.
  - destruct (f a) as [e|b]; simpl in H; [discriminate|].
    destruct (emap f l) as [e|bs']; simpl in H; [discriminate|].
    injection H as <-. simpl. f_equal. apply IH. reflexivity.
Qed.

Lemma emap_returns {A B} (f : A -> exn + B) (l : list A) :
  Forall (fun a => exists b, f a = inr b) l -> exists bs, emap f l = inr bs.
Proof.
  induction 1 as [|a l [b Hb] _ [bs IH]]; simpl; [eauto|].
  rewrite Hb, IH. simpl. eauto.
Qed.

Lemma extract_unique_sentences_shape (rows : list row) (m : gmap string nat)
    (e1 e2 : list nat) (labels : list Z) :
  extract_unique_sentences rows m = inr (e1, e2, labels) ->
  length e1 = length rows /\ length e2 = length rows /\ labels = test_labels rows.
Proof.
  revert e1 e2 labels. induction rows as [|r rows IH]; simpl; intros e1 e2 labels H.
  - injection H as <- <- <-. auto.
  - destruct (questions_text r) as [s1 s2].
    destruct (m !! s1); [|discriminate]. destruct (m !! s2); [|discriminate].
    destruct (extract_unique_sentences rows m) as [e|[[a b] c]]; [discriminate|].
    injection H as <- <- <-. destruct (IH a b c eq_refl) as (Ha & Hb & ->).
    simpl. rewrite Ha, Hb. auto.
Qed.

Lemma embedding_layer_returns (table : list embedding) (ids : list nat) :
  Forall (fun i => (i < length table)%nat) ids ->
  exists es, embedding_layer table ids = inr es.
Proof.
  intros Hall. apply emap_returns. eapply Forall_impl; [exact Hall|].
  intros i Hi. simpl in Hi. destruct (lookup_lt_is_Some_2 table i Hi) as [e He].
  rewrite He. eauto.
Qed.

Lemma check_dims_returns (dim : nat) (items res : list embedding) :
  Forall (fun e => length e = dim) items -> check_dims dim items res = inr (res ++ items).
Proof.
  intros Hall. revert res. induction Hall as [|e items He _ IH]; intros res; simpl.
  - rewrite app_nil_r. reflexivity.
  - rewrite He, Nat.eqb_refl, IH, <- app_assoc. reflexivity.
Qed.

(** Coroutines that all succeed, each with one embedding per text: [gather]
    returns as many embeddings as there are texts. *)
Lemma gather_returns (g : nat -> list string -> exn + list embedding)
    (batches : list (list string)) :
  (forall i texts, exists es, g i texts = inr es /\ length es = length texts) ->
  exists res, gather (imap g batches) = inr res /\
              length (concat res) = length (concat batches).
Proof.
  unfold gather. revert g. induction batches as [|texts batches IH]; intros g Hg; simpl.
  - exists []. auto.
  - destruct (Hg 0%nat texts) as (es & Hes & Hlen).
    destruct (IH (g ∘ S)) as (res & Hres & Hlens).
    { intros i t. apply Hg. }
    exists (es :: res). rewrite Hes, Hres. simpl. rewrite !length_app. auto.
Qed.

Lemma ids_in_range {A} (uniq : list string) (sel : A -> string)
    (rows : list A) (ids : list nat) :
  Forall2 (fun r i => uniq !! i = Some (sel r)) rows ids ->
  Forall (fun i => (i < length uniq)%nat) ids.
Proof.
  induction 1 as [|r i rows ids Hi _ IH]; constructor; auto.
  eapply lookup_lt_Some. exact Hi.
Qed.

Section Providers.

Variables (accuracy_score precision_score recall_score : label_metric).
Variable roc_auc_score : score_metric.
Variable threshold_decorator : float -> label_metric -> score_metric.
Variable cos_sim : embedding -> embedding -> float.

#[local] Abbreviation evaluate :=
  (evaluate accuracy_score precision_score recall_score roc_auc_score threshold_decorator).
#[local] Abbreviation score :=
  (score accuracy_score precision_score recall_score roc_auc_score threshold_decorator
         cos_sim).
#[local] Abbreviation benchmark_mteb_model :=
  (benchmark_mteb_model accuracy_score precision_score recall_score roc_auc_score
                        threshold_decorator cos_sim).
#[local] Abbreviation benchmark_openai :=
  (benchmark_openai accuracy_score precision_score recall_score roc_auc_score
                    threshold_decorator cos_sim).
#[local] Abbreviation benchmark_cohere_roc :=
  (benchmark_cohere_roc accuracy_score precision_score recall_score roc_auc_score
                        threshold_decorator cos_sim).
#[local] Abbreviation scored :=
  (scored accuracy_score precision_score recall_score roc_auc_score threshold_decorator).
#[local] Abbreviation main :=
  (main accuracy_score precision_score recall_score roc_auc_score threshold_decorator
        cos_sim).

Lemma evaluate_keys (labels : list Z) (predictions : list float) :
  dict_keys (evaluate labels predictions) = EVAL_KEYS.
Proof. reflexivity. Qed.

Lemma score_inr (test_dataset : list row) (mapping : gmap string nat)
    (table : list embedding) (evals : pydict float) :
  score test_dataset mapping table = inr evals -> scored test_dataset evals.
Proof.
  unfold Benchmark.score. intros H.
  destruct (extract_unique_sentences test_dataset mapping) as [e|[[e1 e2] labels]] eqn:Hex;
    simpl in H; [discriminate|].
  destruct (embedding_layer table e1) as [e|a] eqn:Ha; simpl in H; [discriminate|].
  destruct (embedding_layer table e2) as [e|b] eqn:Hb; simpl in H; [discriminate|].
  injection H as <-.
  apply extract_unique_sentences_shape in Hex as (H1 & H2 & ->).
  apply emap_length in Ha, Hb. exists (diag_cos_sim cos_sim a b). split; [|reflexivity].
  unfold diag_cos_sim. rewrite length_zip_with. lia.
Qed.

Lemma score_returns (test_dataset : list row) (batch_size : Z) (table : list embedding) :
  0 < batch_size ->
  length table =
    length (concat (fst (get_unique_sentences test_dataset ∅ batch_size))) ->
  exists evals,
    score test_dataset (snd (get_unique_sentences test_dataset ∅ batch_size)) table =
      inr evals.
Proof.
  intros Hpos Hlen.
  destruct (get_unique_sentences_inv test_dataset ∅ batch_size Hpos)
    as (Hdone & Hnd & Hids & _).
  set (uniq := concat (fst (get_unique_sentences test_dataset ∅ batch_size))) in *.
  set (mapping := snd (get_unique_sentences test_dataset ∅ batch_size)) in *.
  destruct (extract_unique_sentences_ok uniq mapping test_dataset)
    as (e1 & e2 & Hex & H1 & H2).
  { intros s Hs. rewrite <- first_occurrences_elem, <- Hdone in Hs.
    apply list_elem_of_lookup in Hs as [i Hi]. eauto. }
  apply ids_in_range in H1, H2. rewrite <- Hlen in H1, H2.
  destruct (embedding_layer_returns table e1 H1) as [a Ha].
  destruct (embedding_layer_returns table e2 H2) as [b Hb].
  unfold Benchmark.score. rewrite Hex. simpl. rewrite Ha. simpl. rewrite Hb. simpl. eauto.
Qed.

Lemma benchmark_mteb_model_inr encode test_dataset evals :
  benchmark_mteb_model encode test_dataset = inr evals -> scored test_dataset evals.
Proof.
  unfold Benchmark.benchmark_mteb_model.
  destruct (get_unique_sentences test_dataset ∅ 5000) as [batches mapping].
  apply score_inr.
Qed.

Lemma benchmark_openai_inr client test_dataset evals :
  benchmark_openai client test_dataset = inr evals -> scored test_dataset evals.
Proof.
  unfold Benchmark.benchmark_openai.
  destruct (get_unique_sentences test_dataset ∅ 128) as [batches mapping].
  destruct (gather (openai_coros client batches)) as [e|res]; simpl; [discriminate|].
  apply score_inr.
Qed.

Lemma benchmark_cohere_roc_inr co test_dataset evals :
  benchmark_cohere_roc co test_dataset = inr evals -> scored test_dataset evals.
Proof.
  unfold Benchmark.benchmark_cohere_roc.
  destruct (get_unique_sentences test_dataset ∅ 96) as [batches mapping].
  destruct (gather (cohere_coros co batches)) as [e|res]; simpl; [discriminate|].
  apply score_inr.
Qed.

Lemma scored_keys test_dataset evals :
  scored test_dataset evals -> dict_keys evals = EVAL_KEYS.
Proof. intros (predictions & _ & ->). apply evaluate_keys. Qed.

Lemma flat_map_encode_length encode (batches : list (list string)) :
  encode_well_formed encode ->
  length (flat_map encode batches) = length (concat batches).
Proof.
  intros Hwf. induction batches as [|texts batches IH]; simpl; [reflexivity|].
  rewrite !length_app, Hwf, IH. reflexivity.
Qed.

Lemma benchmark_mteb_model_returns encode test_dataset :
  encode_well_formed encode ->
  exists evals, benchmark_mteb_model encode test_dataset = inr evals.
Proof.
  intros Hwf. unfold Benchmark.benchmark_mteb_model.
  pose proof (score_returns test_dataset 5000) as Hscore.
  destruct (get_unique_sentences test_dataset ∅ 5000) as [batches mapping].
  apply Hscore; [reflexivity|]. apply flat_map_encode_length. exact Hwf.
Qed.

Lemma benchmark_openai_returns client test_dataset :
  openai_well_formed client ->
  exists evals, benchmark_openai client test_dataset = inr evals.
Proof.
  intros Hwf. unfold Benchmark.benchmark_openai.
  pose proof (score_returns test_dataset 128) as Hscore.
  destruct (get_unique_sentences test_dataset ∅ 128) as [batches mapping].
  destruct (gather_returns (fun i texts => embed_text_openai (client i texts) texts) batches)
    as (res & Hres & Hlen).
  { intros i texts. destruct (Hwf i texts) as (response & -> & Hn & Hdims).
    exists (response_data response). split; [|exact Hn].
    unfold embed_text_openai. simpl. rewrite Hn, Nat.eqb_refl.
    apply (check_dims_returns 1536 _ [] Hdims). }
  unfold openai_coros. rewrite Hres. simpl. apply Hscore; [reflexivity|exact Hlen].
Qed.

Lemma benchmark_cohere_roc_returns co test_dataset :
  cohere_well_formed co ->
  exists evals, benchmark_cohere_roc co test_dataset = inr evals.
Proof.
  intros Hwf. unfold Benchmark.benchmark_cohere_roc.
  pose proof (score_returns test_dataset 96) as Hscore.
  destruct (get_unique_sentences test_dataset ∅ 96) as [batches mapping].
  destruct (gather_returns (fun i texts => embed_text_cohere (co i texts) texts) batches)
    as (res & Hres & Hlen).
  { intros i texts. destruct (Hwf i texts) as (response & -> & Hn & Hdims).
    exists (embeddings response). split; [|exact Hn].
    unfold embed_text_cohere. simpl. rewrite Hn, Nat.eqb_refl.
    rewrite (check_dims_returns 1024 _ [] Hdims). reflexivity. }
  unfold cohere_coros. rewrite Hres. simpl. apply Hscore; [reflexivity|exact Hlen].
Qed.

Lemma emap_Forall2 {A B} (f : A -> exn + B) (l : list A) (bs : list B) :
  emap f l = inr bs -> Forall2 (fun a b => f a = inr b) l bs.
Proof.
  revert bs. induction l as [|a l IH]; simpl; intros bs H.
  - injection H as <-. constructor.
  - destruct (f a) as [e|b] eqn:Hb; simpl in H; [discriminate|].
    destruct (emap f l) as [e|bs']; simpl in H; [discriminate|].
    injection H as <-. constructor; auto.
Qed.


End Providers.

Lemma client_ok_well_formed : openai_well_formed client_ok.
Proof.
  intros i texts. eexists. split; [reflexivity|]. cbn [response_data].
  rewrite length_map. split; [reflexivity|].
  apply Forall_map, Forall_forall. intros t _. apply length_replicate.
Qed.

Lemma co_ok_well_formed : cohere_well_formed co_ok.
Proof.
  intros i texts. eexists. split; [reflexivity|]. cbn [embeddings].
  rewrite length_map. split; [reflexivity|].
  apply Forall_map, Forall_forall. intros t _. apply length_replicate.
Qed.

Lemma encode_ok_well_formed model_name : encode_well_formed (encode_ok model_name).
Proof. intros texts. apply length_map. Qed.


(** *** Failed responses *)

(** Whenever the OpenAI response carries another number of embeddings than
    texts were sent, building the message of the failed [assert] raises. *)
Lemma embed_text_openai_count_mismatch (response : CreateEmbeddingResponse)
    (texts : list string) :
  length (response_data response) <> length texts ->
  embed_text_openai (inr response) texts =
    inl (TypeError "object of type 'CreateEmbeddingResponse' has no len()").
Proof.
  intros Hne. unfold embed_text_openai. simpl.
  destruct (Nat.eqb_spec (length (response_data response)) (length texts)); [contradiction|].
  reflexivity.
Qed.

Lemma embed_text_cohere_count_mismatch (response : CohereResponse) (texts : list string) :
  length (embeddings response) <> length texts ->
  embed_text_cohere (inr response) texts = inl (AssertionError "").
Proof.
  intros Hne. unfold embed_text_cohere. simpl.
  destruct (Nat.eqb_spec (length (embeddings response)) (length texts)); [contradiction|].
  reflexivity.
Qed.

Lemma check_dims_raises (dim : nat) (items res : list embedding) :
  Exists (fun e => length e <> dim) items ->
  check_dims dim items res = inl (AssertionError "").
Proof.
  intros Hex. revert res. induction items as [|e items IH]; intros res.
  - inversion Hex.
  - simpl. destruct (Nat.eqb_spec (length e) dim) as [Heq|Hne]; [|reflexivity].
    apply IH. inversion Hex; subst; [contradiction|assumption].
Qed.

(** A call that raises, or a response that fails a check, makes [gather]
    and with it the whole benchmark raise: no result is built from the
    batches that succeeded. *)
Lemma gather_raises {A} (outcomes : list (exn + A)) :
  Exists (fun o => exists e, o = inl e) outcomes -> exists e, gather outcomes = inl e.
Proof.
  unfold gather. induction outcomes as [|o outcomes IH]; intros Hex; [inversion Hex|].
  simpl. destruct o as [e|a]; simpl; [eauto|].
  destruct IH as [e He]; [inversion Hex as [? ? [e' He']|]; [discriminate|assumption]|].
  rewrite He. simpl. eauto.
Qed.

(** C4 (as the code behaves). With two texts sent and one embedding in the
    response, the OpenAI helper does not raise [AssertionError]: evaluating
    the assertion's message raises [TypeError].  The Cohere helper raises
    [AssertionError] on the same response, and both do on an embedding of the
    wrong length. *)
Theorem embed_text_openai_raises_type_error :
  embed_text_openai (inr {| response_data := short_response |}) ["a"; "b"] =
    inl (TypeError "object of type 'CreateEmbeddingResponse' has no len()") /\
  embed_text_cohere (inr {| embeddings := short_response |}) ["a"; "b"] =
    inl (AssertionError "") /\
  embed_text_openai (inr {| response_data := [[0.5%float]] |}) ["a"] =
    inl (AssertionError "") /\
  embed_text_cohere (inr {| embeddings := [[0.5%float]] |}) ["a"] =
    inl (AssertionError "").
Proof. repeat split; vm_compute; reflexivity. Qed.

(** *** The sizes of the batches *)

Lemma concat_length_uniform_strings (b : Z) (qs : list (list string)) :
  Forall (fun q => Z.of_nat (length q) = b) qs ->
  Z.of_nat (length (concat qs)) = b * Z.of_nat (length qs).
Proof.
  induction 1 as [|q qs Hq _ IH]; simpl; [lia|].
  rewrite length_app. lia.
Qed.

Lemma visit_sizes (b : Z) (s : string) (st : gen_state) :
  0 < b ->
  Forall (fun q => Z.of_nat (length q) = b) (yielded st) ->
  Z.of_nat (length (batch st)) < b ->
  Forall (fun q => Z.of_nat (length q) = b) (yielded (visit b s st)) /\
  Z.of_nat (length (batch (visit b s st))) < b.
Proof.
  intros Hb Hy Hlen. unfold visit.
  destruct (decide (s ∈ seen st)); [auto|].
  destruct (Z.eqb_spec (Z.of_nat (length (batch st ++ [s]))) b) as [Hfull|Hnot]; simpl.
  - split; [|lia]. apply Forall_app. split; [exact Hy|]. constructor; auto.
  - split; [exact Hy|]. rewrite length_app in *. simpl in *. lia.
Qed.

Lemma fold_sizes (b : Z) (rows : list row) :
  0 < b ->
  forall st,
    Forall (fun q => Z.of_nat (length q) = b) (yielded st) ->
    Z.of_nat (length (batch st)) < b ->
    Forall (fun q => Z.of_nat (length q) = b)
      (yielded (fold_left (visit_row b) rows st)) /\
    Z.of_nat (length (batch (fold_left (visit_row b) rows st))) < b.
Proof.
  intros Hb. induction rows as [|r rows IH]; intros st Hy Hlen; simpl; [auto|].
  apply IH; unfold visit_row; destruct (questions_text r) as [s1 s2];
    destruct (visit_sizes b s1 st Hb Hy Hlen) as [Hy1 Hl1];
    destruct (visit_sizes b s2 _ Hb Hy1 Hl1) as [Hy2 Hl2]; assumption.
Qed.

(** X6. For a positive batch size, no batch that [get_unique_sentences]
    yields is empty or longer than the batch size, every batch but the last
    is full, and the number of batches is the number of distinct sentences
    divided by the batch size, rounded up. *)
Theorem get_unique_sentences_batch_sizes (test_dataset : list row)
    (mapping0 : gmap string nat) (batch_size : Z) :
  0 < batch_size ->
  let batches := fst (get_unique_sentences test_dataset mapping0 batch_size) in
  Forall (fun q => (0 < length q)%nat /\ Z.of_nat (length q) <= batch_size) batches /\
  (forall i q, batches !! i = Some q -> (S i < length batches)%nat ->
               Z.of_nat (length q) = batch_size) /\
  Z.of_nat (length batches) =
    (Z.of_nat (length (concat batches)) + batch_size - 1) / batch_size.
Proof.
  intros Hb batches. subst batches. unfold get_unique_sentences. cbn [fst].
  set (st0 := {| seen := ∅; batch := []; sentence_to_id_mapping := mapping0;
                 yielded := [] |}).
  destruct (fold_sizes batch_size test_dataset Hb st0) as [Hy Hlen];
    [constructor | simpl; lia |].
  set (st := fold_left (visit_row batch_size) test_dataset st0) in *.
  pose proof (concat_length_uniform_strings batch_size (yielded st) Hy) as Hcat.
  split; [|split].
  - apply Forall_app. split.
    + eapply Forall_impl; [exact Hy|]. intros q Hq. simpl in Hq. lia.
    + destruct (batch st) as [|x l] eqn:Hbatch; constructor; [|constructor].
      simpl in *. lia.
  - intros i q Hi Hlast. rewrite length_app in Hlast.
    assert (Hi' : (i < length (yielded st))%nat).
    { destruct (batch st); simpl in Hlast; lia. }
    rewrite lookup_app_l in Hi by exact Hi'.
    eapply Forall_lookup_1 in Hy; [|exact Hi]. exact Hy.
  - rewrite concat_app, !length_app, Nat2Z.inj_add, Nat2Z.inj_add, Hcat.
    set (k := Z.of_nat (length (yielded st))) in *.
    assert (Hk : 0 <= k) by (subst k; lia).
    destruct (batch st) as [|x l] eqn:Hbatch; simpl concat; simpl length.
    + apply Z.div_unique with (r := batch_size - 1); lia.
    + rewrite app_nil_r. simpl length in Hlen.
      apply Z.div_unique with (r := Z.of_nat (S (length l)) - 1); lia.
Qed.

Lemma get_unique_sentences_batch_sizes_witness :
  Z.of_nat (length (fst (get_unique_sentences four_rows ∅ 2))) =
    (Z.of_nat (length (concat (fst (get_unique_sentences four_rows ∅ 2)))) + 2 - 1) / 2.
Proof.
  exact (proj2 (proj2 (get_unique_sentences_batch_sizes four_rows ∅ 2 eq_refl))).
Defined.

(** *** The dictionary and the lookups *)

(** X7. For a positive batch size, once [get_unique_sentences] is
    exhausted the dictionary maps a sentence of the dataset to [i] exactly
    when the sentence is at index [i] of the concatenated batches, whatever
    the dictionary held for it before; every such id is below the number of
    distinct sentences; and the entries of all other keys are left as they
    were. *)
Theorem get_unique_sentences_mapping_exact (test_dataset : list row)
    (mapping0 : gmap string nat) (batch_size : Z) :
  0 < batch_size ->
  let uniq := concat (fst (get_unique_sentences test_dataset mapping0 batch_size)) in
  let mapping := snd (get_unique_sentences test_dataset mapping0 batch_size) in
  (forall s i, s ∈ sentences test_dataset ->
     (mapping !! s = Some i <-> uniq !! i = Some s)) /\
  (forall s i, s ∈ sentences test_dataset -> mapping !! s = Some i ->
     (i < length uniq)%nat) /\
  (forall s, s ∉ sentences test_dataset -> mapping !! s = mapping0 !! s).
Proof.
  intros Hpos uniq mapping.
  destruct (get_unique_sentences_inv test_dataset mapping0 batch_size Hpos)
    as (Hdone & Hnd & Hids & Hold).
  fold uniq in Hdone, Hnd, Hids, Hold. fold mapping in Hids, Hold.
  assert (Hmem : forall s, s ∈ uniq <-> s ∈ sentences test_dataset).
  { intros s. rewrite Hdone. apply first_occurrences_elem. }
  assert (Hiff : forall s i, s ∈ sentences test_dataset ->
                   (mapping !! s = Some i <-> uniq !! i = Some s)).
  { intros s i Hs. split; [|apply Hids].
    intros Hm. apply Hmem, list_elem_of_lookup in Hs as [j Hj].
    pose proof (Hids j s Hj) as Hm'. congruence. }
  split; [exact Hiff|]. split.
  - intros s i Hs Hm. apply Hiff in Hm; [|exact Hs]. eapply lookup_lt_Some. exact Hm.
  - intros s Hs. apply Hold. rewrite Hmem. exact Hs.
Qed.

Lemma get_unique_sentences_mapping_exact_witness :
  snd (get_unique_sentences four_rows ∅ 2) !! "c" = Some 2%nat <->
  concat (fst (get_unique_sentences four_rows ∅ 2)) !! 2%nat = Some "c".
Proof.
  apply (proj1 (get_unique_sentences_mapping_exact four_rows ∅ 2 eq_refl)).
  apply list_elem_of_In. simpl. auto.
Defined.

(** X8. [extract_unique_sentences] raises [KeyError] for the first sentence,
    in reading order, that the dictionary lacks; when no sentence is missing
    it returns the dictionary's ids of the first and of the second question
    of every row, and the 0/1 labels. *)
Theorem extract_unique_sentences_key_error (test_dataset : list row)
    (mapping : gmap string nat) :
  match extract_unique_sentences test_dataset mapping with
  | inl e =>
      exists pre s post,
        sentences test_dataset = pre ++ s :: post /\
        Forall (fun x => is_Some (mapping !! x)) pre /\
        mapping !! s = None /\ e = KeyError s
  | inr (e1, e2, labels) =>
      map Some e1 = map (fun r => mapping !! fst (questions_text r)) test_dataset /\
      map Some e2 = map (fun r => mapping !! snd (questions_text r)) test_dataset /\
      labels = test_labels test_dataset
  end.
Proof.
  induction test_dataset as [|r rows IH]; simpl; [auto|].
  unfold sentences. simpl. fold (sentences rows).
  destruct (questions_text r) as [s1 s2]. simpl.
  destruct (mapping !! s1) as [i|] eqn:H1.
  2: { exists [], s1, (s2 :: sentences rows). auto. }
  destruct (mapping !! s2) as [j|] eqn:H2.
  2: { exists [s1], s2, (sentences rows). repeat split; auto. }
  destruct (extract_unique_sentences rows mapping) as [e|[[e1 e2] labels]].
  - destruct IH as (pre & s & post & Hs & Hpre & Hnone & He).
    exists (s1 :: s2 :: pre), s, post. rewrite Hs. repeat split; auto.
  - destruct IH as (IH1 & IH2 & ->). simpl. rewrite IH1, IH2. auto.
Qed.

(** The embedding lookup raises [IndexError] exactly when some id is not
    below the number of rows of the table; otherwise it returns, for each
    id in order, the table's row at that id. *)
Lemma embedding_layer_bounds (table : list embedding) (ids : list nat) :
  match embedding_layer table ids with
  | inl e => e = IndexError "index out of range in self" /\
             Exists (fun i => (length table <= i)%nat) ids
  | inr es => Forall2 (fun i e => table !! i = Some e) ids es
  end.
Proof.
  unfold embedding_layer. induction ids as [|i ids IH]; simpl; [constructor|].
  destruct (table !! i) as [e|] eqn:Hi; simpl.
  - destruct (emap _ ids) as [e'|es]; simpl.
    + destruct IH as [-> Hex]. split; [reflexivity|]. right. exact Hex.
    + constructor; auto.
  - split; [reflexivity|]. left. apply lookup_ge_None. exact Hi.
Qed.

(** *** What the helpers accept *)

Lemma check_dims_inr (dim : nat) (items res out : list embedding) :
  check_dims dim items res = inr out ->
  Forall (fun e => length e = dim) items /\ out = res ++ items.
Proof.
  revert res. induction items as [|e items IH]; intros res H; simpl in H.
  - injection H as <-. rewrite app_nil_r. auto.
  - destruct (Nat.eqb_spec (length e) dim) as [Heq|Hne]; [|discriminate].
    destruct (IH _ H) as [Hall ->]. rewrite <- app_assoc. auto.
Qed.

(** X4. The OpenAI helper returns exactly when the call returned a
    response with one embedding per text, each of 1536 entries, and then it
    returns the response's embeddings unchanged and in order; an exception of
    the call passes through unchanged. *)
Theorem embed_text_openai_returns_iff (outcome : exn + CreateEmbeddingResponse)
    (texts : list string) (es : list embedding) :
  (embed_text_openai outcome texts = inr es <->
   exists response,
     outcome = inr response /\
     length (response_data response) = length texts /\
     Forall (fun e => length e = 1536%nat) (response_data response) /\
     es = response_data response) /\
  (forall e, outcome = inl e -> embed_text_openai outcome texts = inl e).
Proof.
  split; [|intros e ->; reflexivity]. split.
  - destruct outcome as [e|response]; simpl; [discriminate|].
    destruct (Nat.eqb_spec (length (response_data response)) (length texts)) as [Hn|Hn];
      [|discriminate].
    intros H. apply check_dims_inr in H as [Hall ->]. exists response. auto.
  - intros (response & -> & Hn & Hall & ->). simpl. rewrite Hn, Nat.eqb_refl.
    apply (check_dims_returns 1536 _ [] Hall).
Qed.

(** X5. The Cohere helper returns exactly when the call returned a response
    with one embedding per text, each of 1024 entries, and then it returns
    the response's embeddings; in every other case of a response it raises
    [AssertionError]. *)
Theorem embed_text_cohere_returns_iff (outcome : exn + CohereResponse)
    (texts : list string) (es : list embedding) :
  (embed_text_cohere outcome texts = inr es <->
   exists response,
     outcome = inr response /\
     length (embeddings response) = length texts /\
     Forall (fun e => length e = 1024%nat) (embeddings response) /\
     es = embeddings response) /\
  (forall response e,
     outcome = inr response -> embed_text_cohere outcome texts = inl e ->
     e = AssertionError "").
Proof.
  split; [split|].
  - destruct outcome as [e|response]; simpl; [discriminate|].
    destruct (Nat.eqb_spec (length (embeddings response)) (length texts)) as [Hn|Hn];
      [|discriminate].
    destruct (check_dims 1024 (embeddings response) []) as [e|out] eqn:Hc; simpl;
      [discriminate|].
    intros [= <-]. apply check_dims_inr in Hc as [Hall _]. exists response. auto.
  - intros (response & -> & Hn & Hall & ->). simpl. rewrite Hn, Nat.eqb_refl.
    rewrite (check_dims_returns 1024 _ [] Hall). reflexivity.
  - intros response e -> H. simpl in H.
    destruct (length (embeddings response) =? length texts)%nat; [|congruence].
    destruct (check_dims 1024 (embeddings response) []) as [e'|out] eqn:Hc; simpl in H;
      [|discriminate].
    injection H as <-.
    assert (Hex : forall items res e0, check_dims 1024 items res = inl e0 ->
                                       e0 = AssertionError "").
    { clear. induction items as [|it items IH]; intros res e0 H; simpl in H;
        [discriminate|].
      destruct (length it =? 1024)%nat; [eauto|congruence]. }
    eapply Hex. exact Hc.
Qed.

(** *** The event loop *)

Lemma in_flight_insert (ts : list task) (i : nat) (t t' : task) :
  ts !! i = Some t ->
  (in_flight (<[i := t']> ts) + (if is_in_flight t then 1 else 0) =
   in_flight ts + (if is_in_flight t' then 1 else 0))%nat.
Proof.
  unfold in_flight. revert i. induction ts as [|u ts IH]; intros i Hi.
  - rewrite lookup_nil in Hi. discriminate.
  - destruct i as [|i]; simpl in *.
    + injection Hi as ->. rewrite !filter_cons.
      destruct (is_in_flight t), (is_in_flight t'); simpl;
        repeat (destruct (decide _)); simpl; try contradiction; lia.
    + specialize (IH i Hi). rewrite !filter_cons.
      destruct (decide (is_in_flight u)); simpl; lia.
Qed.

Lemma in_flight_pending (n : nat) : in_flight (replicate n Pending) = 0%nat.
Proof. unfold in_flight. induction n as [|n IH]; simpl; auto. Qed.

Lemma in_flight_finished (os : list (exn + list embedding)) :
  in_flight (map Finished os) = 0%nat.
Proof. unfold in_flight. induction os as [|o os IH]; simpl; auto. Qed.

Section EventLoop.

Variable outcomes : list (exn + list embedding).
Variable limit : nat.

Lemma loop_inv_initial : loop_inv outcomes limit (initial limit (length outcomes)).
Proof.
  unfold loop_inv, initial. simpl. rewrite in_flight_pending, length_replicate.
  repeat split; auto.
  intros i o Hi. apply lookup_replicate in Hi as [Hi _]. discriminate.
Qed.

Lemma loop_inv_step (st st' : loop) :
  loop_inv outcomes limit st -> step outcomes st st' -> loop_inv outcomes limit st'.
Proof.
  unfold loop_inv. intros (Hsem & Hlen & Hfin & Hcaller) Hstep.
  destruct Hstep as [i n ts c Hi | i n ts c o Hi Ho | n res]; simpl in *.
  - pose proof (in_flight_insert ts i Pending InFlight Hi) as Hc. simpl in Hc.
    rewrite length_insert. repeat split; [lia | exact Hlen | | ].
    + intros j o Hj. destruct (decide (i = j)) as [->|Hne].
      * rewrite list_lookup_insert_eq in Hj by (eapply lookup_lt_Some; eauto).
        discriminate.
      * rewrite list_lookup_insert_ne in Hj by exact Hne. eauto.
    + destruct c as [|e|res]; auto. rewrite Hcaller in Hi.
      rewrite list_lookup_fmap in Hi. destruct (res !! i); discriminate.
  - pose proof (in_flight_insert ts i InFlight (Finished o) Hi) as Hc. simpl in Hc.
    rewrite length_insert. repeat split; [lia | exact Hlen | | ].
    + intros j o' Hj. destruct (decide (i = j)) as [->|Hne].
      * rewrite list_lookup_insert_eq in Hj by (eapply lookup_lt_Some; eauto).
        injection Hj as <-. exact Ho.
      * rewrite list_lookup_insert_ne in Hj by exact Hne. eauto.
    + destruct c as [|e|res].
      * destruct o as [e|r]; eauto.
      * exact Hcaller.
      * rewrite Hcaller in Hi. rewrite list_lookup_fmap in Hi.
        destruct (res !! i); discriminate.
  - repeat split; auto.
Qed.

Lemma loop_inv_reachable (st : loop) :
  reachable outcomes limit st -> loop_inv outcomes limit st.
Proof.
  induction 1 as [|st st' _ IH Hstep]; [apply loop_inv_initial|].
  eapply loop_inv_step; eauto.
Qed.

(** At every moment of a run at most [limit] calls are in flight; when
    [gather] has returned, no task is unfinished and the results are those of
    the coroutines, in their order. *)
Lemma reachable_bounded_and_ordered (st : loop) :
  reachable outcomes limit st ->
  (in_flight (tasks st) <= limit)%nat /\
  forall res, caller st = Returned res ->
    tasks st = map (fun r => Finished (inr r)) res /\
    in_flight (tasks st) = 0%nat /\
    outcomes = map inr res.
Proof.
  intros Hreach. apply loop_inv_reachable in Hreach.
  destruct Hreach as (Hsem & Hlen & Hfin & Hcaller). split; [lia|].
  intros res Hres. rewrite Hres in Hcaller. split; [exact Hcaller|]. split.
  - rewrite Hcaller. rewrite <- (map_map inr Finished). apply in_flight_finished.
  - rewrite Hcaller in Hlen, Hfin. rewrite length_map in Hlen.
    apply list_eq. intros i. rewrite list_lookup_fmap.
    destruct (res !! i) as [r|] eqn:Hr; simpl.
    + apply Hfin. rewrite list_lookup_fmap, Hr. reflexivity.
    + apply lookup_ge_None. apply lookup_ge_None in Hr. lia.
Qed.

End EventLoop.

(** A run in which every coroutine succeeds, one after the other, ends with
    [gather] returning. *)
Lemma reachable_one_by_one (limit : nat) (res : list (list embedding)) (k : nat) :
  (k <= length res)%nat ->
  reachable (map inr res) (S limit)
    {| sem := S limit;
       tasks := map (fun r => Finished (inr r)) (take k res) ++
                replicate (length res - k) Pending;
       caller := Gathering |}.
Proof.
  induction k as [|k IH]; intros Hk.
  - rewrite take_0, Nat.sub_0_r. simpl.
    pose proof (reachable_initial (map inr res) (S limit)) as Hinit.
    unfold initial in Hinit. rewrite length_map in Hinit. exact Hinit.
  - specialize (IH ltac:(lia)).
    destruct (lookup_lt_is_Some_2 res k ltac:(lia)) as [r Hr].
    set (done := map (fun r => Finished (inr r)) (take k res)) in *.
    assert (Hdone : length done = k).
    { subst done. rewrite length_map, length_take. lia. }
    replace (length res - k)%nat with (S (length res - S k)) in IH by lia.
    simpl replicate in IH.
    eapply reachable_step; [eapply reachable_step; [exact IH|]|].
    + apply (step_acquire _ k). rewrite lookup_app_r by lia.
      rewrite Hdone, Nat.sub_diag. reflexivity.
    + replace (map (fun r => Finished (inr r)) (take (S k) res) ++
               replicate (length res - S k) Pending)
        with (<[k := Finished (inr r)]>
                (<[k := InFlight]> (done ++ Pending :: replicate (length res - S k) Pending))).
      * apply (step_release (map inr res) k limit _ Gathering (inr r)).
        -- apply list_lookup_insert_eq. rewrite length_app. simpl. lia.
        -- rewrite list_lookup_fmap, Hr. reflexivity.
      * rewrite list_insert_insert_eq.
        rewrite insert_app_r_alt by lia. rewrite Hdone, Nat.sub_diag. simpl.
        rewrite (take_S_r res k r Hr), map_app. simpl.
        rewrite <- app_assoc. reflexivity.
Qed.

Lemma reachable_returned (limit : nat) (res : list (list embedding)) :
  reachable (map inr res) (S limit)
    {| sem := S limit; tasks := map (fun r => Finished (inr r)) res;
       caller := Returned res |}.
Proof.
  eapply reachable_step; [|apply step_return].
  pose proof (reachable_one_by_one limit res (length res) ltac:(lia)) as H.
  rewrite take_ge, Nat.sub_diag, app_nil_r in H by lia. exact H.
Qed.

(** C7. In [benchmark_openai] at most 20, and in [benchmark_cohere_roc] at most
    64, embedding calls are in flight at any moment of a run: a call is in
    flight only while its task holds the semaphore.  [gather] returns, and
    the metric computation starts, only when no task is unfinished, and the
    gathered results are those of the batches' coroutines in the order of the
    batches, so [flattened_res] concatenates them in that order. *)
Theorem semaphore_bounds_calls_in_flight
    (client : nat -> list string -> exn + CreateEmbeddingResponse)
    (co : nat -> list string -> exn + CohereResponse)
    (sentences : list (list string)) (st : loop) :
  (reachable (openai_coros client sentences) OPENAI_SEMAPHORE st ->
     (in_flight (tasks st) <= 20)%nat /\
     forall res, caller st = Returned res ->
       tasks st = map (fun r => Finished (inr r)) res /\
       in_flight (tasks st) = 0%nat /\
       openai_coros client sentences = map inr res) /\
  (reachable (cohere_coros co sentences) COHERE_SEMAPHORE st ->
     (in_flight (tasks st) <= 64)%nat /\
     forall res, caller st = Returned res ->
       tasks st = map (fun r => Finished (inr r)) res /\
       in_flight (tasks st) = 0%nat /\
       cohere_coros co sentences = map inr res).
Proof.
  split; intros Hreach.
  - exact (reachable_bounded_and_ordered _ OPENAI_SEMAPHORE st Hreach).
  - exact (reachable_bounded_and_ordered _ COHERE_SEMAPHORE st Hreach).
Qed.

Lemma semaphore_bounds_calls_in_flight_witness :
  (in_flight
     (map (fun r => Finished (inr r)) [map (fun _ => replicate 1536 0.5%float) ["a"; "b"]])
   <= 20)%nat.
Proof.
  exact (proj1 (proj1 (semaphore_bounds_calls_in_flight client_ok co_ok [["a"; "b"]]
                         {| sem := 20;
                            tasks := map (fun r => Finished (inr r))
                                       [map (fun _ => replicate 1536 0.5%float) ["a"; "b"]];
                            caller := Returned
                                       [map (fun _ => replicate 1536 0.5%float) ["a"; "b"]] |})
                      (reachable_returned 19
                         [map (fun _ => replicate 1536 0.5%float) ["a"; "b"]]))).
Defined.

(** *** The benchmarks score every pair *)

Lemma embedding_layer_lookup {A} (emb : string -> embedding) (uniq : list string)
    (sel : A -> string) (rows : list A) (ids : list nat) :
  Forall2 (fun r i => uniq !! i = Some (sel r)) rows ids ->
  embedding_layer (map emb uniq) ids = inr (map (fun r => emb (sel r)) rows).
Proof.
  unfold embedding_layer. induction 1 as [|r i rows ids Hi _ IH]; simpl; [reflexivity|].
  rewrite list_lookup_fmap, Hi. simpl. rewrite IH. reflexivity.
Qed.

Lemma gather_pointwise (emb : string -> embedding)
    (g : nat -> list string -> exn + list embedding) (batches : list (list string)) :
  (forall i texts, g i texts = inr (map emb texts)) ->
  gather (imap g batches) = inr (map (map emb) batches).
Proof.
  unfold gather. revert g. induction batches as [|texts batches IH]; intros g Hg; simpl;
    [reflexivity|].
  rewrite Hg. simpl. rewrite (IH (g ∘ S)) by (intros i t; apply Hg). reflexivity.
Qed.

Lemma zip_with_map_both {A B C D} (f : B -> C -> D) (g : A -> B) (h : A -> C)
    (l : list A) :
  zip_with f (map g l) (map h l) = map (fun a => f (g a) (h a)) l.
Proof. induction l as [|a l IH]; simpl; [reflexivity|]. rewrite IH. reflexivity. Qed.

Section Pipeline.

Variables (accuracy_score precision_score recall_score : label_metric).
Variable roc_auc_score : score_metric.
Variable threshold_decorator : float -> label_metric -> score_metric.
Variable cos_sim : embedding -> embedding -> float.

#[local] Abbreviation evaluate :=
  (evaluate accuracy_score precision_score recall_score roc_auc_score threshold_decorator).
#[local] Abbreviation score :=
  (score accuracy_score precision_score recall_score roc_auc_score threshold_decorator
         cos_sim).
#[local] Abbreviation benchmark_mteb_model :=
  (benchmark_mteb_model accuracy_score precision_score recall_score roc_auc_score
                        threshold_decorator cos_sim).
#[local] Abbreviation benchmark_openai :=
  (benchmark_openai accuracy_score precision_score recall_score roc_auc_score
                    threshold_decorator cos_sim).
#[local] Abbreviation benchmark_cohere_roc :=
  (benchmark_cohere_roc accuracy_score precision_score recall_score roc_auc_score
                        threshold_decorator cos_sim).

(** With the table holding the embedding of each distinct sentence, in the
    order of the batches, the scores are those of each row's own pair. *)
Lemma score_each_pair (emb : string -> embedding) (test_dataset : list row)
    (batch_size : Z) :
  0 < batch_size ->
  score test_dataset (snd (get_unique_sentences test_dataset ∅ batch_size))
        (map emb (concat (fst (get_unique_sentences test_dataset ∅ batch_size)))) =
  inr (evaluate (test_labels test_dataset)
         (map (fun r => cos_sim (emb (fst (questions_text r)))
                                (emb (snd (questions_text r)))) test_dataset)).
Proof.
  intros Hpos.
  destruct (get_unique_sentences_inv test_dataset ∅ batch_size Hpos)
    as (Hdone & Hnd & Hids & _).
  set (uniq := concat (fst (get_unique_sentences test_dataset ∅ batch_size))) in *.
  set (mapping := snd (get_unique_sentences test_dataset ∅ batch_size)) in *.
  destruct (extract_unique_sentences_ok uniq mapping test_dataset)
    as (e1 & e2 & Hex & H1 & H2).
  { intros s Hs. rewrite <- first_occurrences_elem, <- Hdone in Hs.
    apply list_elem_of_lookup in Hs as [i Hi]. eauto. }
  unfold Benchmark.score. rewrite Hex. simpl.
  rewrite (embedding_layer_lookup emb uniq _ _ _ H1). simpl.
  rewrite (embedding_layer_lookup emb uniq _ _ _ H2). simpl.
  unfold diag_cos_sim. rewrite zip_with_map_both. reflexivity.
Qed.




(** X12. A single coroutine that raises makes the whole benchmark raise:
    [benchmark_openai] and [benchmark_cohere_roc] return no metrics computed
    from the batches that succeeded. *)
Theorem benchmarks_fail_with_any_batch
    (client : nat -> list string -> exn + CreateEmbeddingResponse)
    (co : nat -> list string -> exn + CohereResponse) (test_dataset : list row) :
  (Exists (fun o => exists e, o = inl e)
          (openai_coros client (fst (get_unique_sentences test_dataset ∅ 128))) ->
   exists e, benchmark_openai client test_dataset = inl e) /\
  (Exists (fun o => exists e, o = inl e)
          (cohere_coros co (fst (get_unique_sentences test_dataset ∅ 96))) ->
   exists e, benchmark_cohere_roc co test_dataset = inl e).
Proof.
  split; intros Hex.
  - unfold Benchmark.benchmark_openai.
    destruct (get_unique_sentences test_dataset ∅ 128) as [batches mapping].
    destruct (gather_raises _ Hex) as [e He]. cbn [fst] in He. rewrite He. simpl. eauto.
  - unfold Benchmark.benchmark_cohere_roc.
    destruct (get_unique_sentences test_dataset ∅ 96) as [batches mapping].
    destruct (gather_raises _ Hex) as [e He]. cbn [fst] in He. rewrite He. simpl. eauto.
Qed.

End Pipeline.



Lemma benchmarks_fail_with_any_batch_witness :
  exists e, benchmark_openai metric_one metric_one metric_one score_one threshold_sample
              cos_sim_one client_down four_rows = inl e.
Proof.
  apply (benchmarks_fail_with_any_batch metric_one metric_one metric_one score_one
           threshold_sample cos_sim_one client_down co_down four_rows).
  left. exists (RuntimeError "Connection error."). reflexivity.
Defined.

(** *** More on the event loop *)

Lemma in_flight_positive (ts : list task) :
  (0 < in_flight ts)%nat -> exists i, ts !! i = Some InFlight.
Proof.
  unfold in_flight. induction ts as [|t ts IH]; simpl; [lia|].
  destruct t; try (intros H; destruct (IH H) as [i Hi]; exists (S i); exact Hi).
  intros _. exists 0%nat. reflexivity.
Qed.



(** X14. With a positive limit the loop cannot get stuck: in every state of
    a run where some task has not finished, a task can acquire the
    semaphore or a call in flight can end. *)
Theorem event_loop_never_deadlocks (outcomes : list (exn + list embedding))
    (limit : nat) (st : loop) :
  (0 < limit)%nat ->
  reachable outcomes limit st ->
  (exists i, tasks st !! i = Some Pending \/ tasks st !! i = Some InFlight) ->
  exists st', step outcomes st st'.
Proof.
  intros Hlimit Hreach [i Hi]. apply loop_inv_reachable in Hreach.
  destruct Hreach as (Hsem & Hlen & _ & _). destruct st as [n ts c]. simpl in *.
  assert (Hrelease : forall j, ts !! j = Some InFlight -> exists st', step outcomes
            {| sem := n; tasks := ts; caller := c |} st').
  { intros j Hj. destruct (lookup_lt_is_Some_2 outcomes j) as [o Ho].
    { rewrite <- Hlen. eapply lookup_lt_Some. exact Hj. }
    eexists. eapply step_release; eauto. }
  destruct Hi as [Hi|Hi]; [|eauto].
  destruct (in_flight ts) as [|k] eqn:Hk.
  - destruct n as [|n]; [lia|]. eexists. eapply step_acquire. exact Hi.
  - destruct (in_flight_positive ts) as [j Hj]; [lia|]. eauto.
Qed.

Lemma event_loop_never_deadlocks_witness :
  exists st', step [inl (RuntimeError "Connection error.")] (initial 20 1) st'.
Proof.
  apply (event_loop_never_deadlocks [inl (RuntimeError "Connection error.")] 20
           (initial 20 1)).
  - lia.
  - apply reachable_initial.
  - exists 0%nat. left. reflexivity.
Defined.

End BenchmarkFacts.

(** ** Theorems about applications/affine-finetune-embeddings/model.py *)

Module ModelFacts.
Import Model.

Local Open Scope R_scope.

Lemma eps_pos : 0 < eps.
Proof. unfold eps. lra. Qed.

Lemma dot_self_nonneg (x : vec) : 0 <= dot x x.
Proof.
  unfold dot, sum_list. induction x as [|a x IH]; simpl; [lra|].
  pose proof (Rle_0_sqr a) as Ha. unfold Rsqr in Ha. lra.
Qed.

Lemma norm_sqr (x : vec) : norm x * norm x = dot x x.
Proof. unfold norm. apply sqrt_sqrt, dot_self_nonneg. Qed.

(** Above the clamp, the library's cosine is the glossary's. *)
Lemma cosine_clamped (x y : vec) :
  eps <= norm x -> eps <= norm y ->
  dot x y / (Rmax (norm x) eps * Rmax (norm y) eps) = cosine x y.
Proof.
  intros Hx Hy. unfold cosine. rewrite !Rmax_left by assumption. reflexivity.
Qed.

Lemma cosine_self (x : vec) : eps <= norm x -> cosine x x = 1.
Proof.
  intros Hx. unfold cosine. rewrite norm_sqr.
  pose proof eps_pos as He. pose proof (norm_sqr x) as Hn.
  apply Rdiv_diag. rewrite <- Hn. nra.
Qed.

Lemma zip_with_ext_Forall {A B C} (f g : A -> B -> C) (P : A -> Prop) (Q : B -> Prop)
    (a : list A) (b : list B) :
  (forall x y, P x -> Q y -> f x y = g x y) ->
  Forall P a -> Forall Q b -> zip_with f a b = zip_with g a b.
Proof.
  intros Hfg Ha. revert b. induction Ha as [|x a Hx _ IH]; intros b Hb; [reflexivity|].
  destruct Hb as [|y b Hy Hb]; [reflexivity|]. simpl. rewrite Hfg, IH; auto.
Qed.

Lemma zip_with_diag {A C} (f : A -> A -> C) (a : list A) :
  zip_with f a a = map (fun x => f x x) a.
Proof. induction a as [|x a IH]; simpl; [reflexivity|]. rewrite IH. reflexivity. Qed.

Lemma broadcast_Forall (P : vec -> Prop) (a b a' b' : tensor) :
  broadcast a b = inr (a', b') -> Forall P a -> Forall P b -> Forall P a' /\ Forall P b'.
Proof.
  unfold broadcast. intros H Ha Hb.
  destruct (length a =? length b)%nat.
  { injection H as <- <-. auto. }
  destruct a as [|x [|x' a]], b as [|y [|y' b]]; try discriminate;
    injection H as <- <-; split; auto;
    repeat (constructor; [eapply Forall_inv; eassumption|]);
    apply Forall_replicate; (eapply Forall_inv; eassumption).
Qed.

Lemma broadcast_diag (a : tensor) : broadcast a a = inr (a, a).
Proof. unfold broadcast. rewrite Nat.eqb_refl. reflexivity. Qed.

Lemma dropout_zero (mask : nat -> nat -> bool) (x : tensor) : dropout mask 0 x = inr x.
Proof.
  unfold dropout.
  destruct (Rlt_dec 0 0); [lra|]. destruct (Rlt_dec 1 0); [lra|].
  destruct (Req_dec_T 0 0); [reflexivity|contradiction].
Qed.

(** On projected rows of magnitude at least [eps], the library's cosine
    similarity, unsqueezed, is the cosine similarity of the rows. *)
Lemma cosine_similarity_spec (a b : tensor) :
  Forall (fun x => eps <= norm x) a -> Forall (fun x => eps <= norm x) b ->
  (try! s := cosine_similarity a b in inr (unsqueeze s)) = cosine_rows a b.
Proof.
  intros Ha Hb. unfold cosine_similarity, cosine_rows.
  destruct (broadcast a b) as [e|[a' b']] eqn:Hbc; simpl; [reflexivity|].
  destruct (broadcast_Forall _ a b a' b' Hbc Ha Hb) as [Ha' Hb'].
  do 2 f_equal. eapply zip_with_ext_Forall; [|exact Ha'|exact Hb'].
  intros x y Hx Hy. apply cosine_clamped; assumption.
Qed.

Lemma norm_singleton (a : R) : 0 <= a -> norm [a] = a.
Proof.
  intros Ha. unfold norm, dot, sum_list. simpl. rewrite Rplus_0_r.
  apply sqrt_square. exact Ha.
Qed.

(** The forward pass of the identity model on [tiny], twice: 1e-18 divided
    by the two clamped magnitudes, 1e-8 each. *)
Lemma forward_tiny :
  forward identity_model keep_all keep_all tiny tiny = inr [[ / 100 ]].
Proof.
  unfold forward. change (dropout_fraction identity_model) with 0.
  rewrite !dropout_zero. simpl.
  change (vec_mat 1 1 [/ 1000000000] (projection identity_model))
    with [/ 1000000000 * 1 + 0].
  rewrite norm_singleton by lra.
  rewrite Rmax_right by (unfold eps; lra).
  do 3 f_equal. unfold dot, sum_list, eps. simpl. field.
Qed.

Lemma projected_tiny :
  matmul 1 1 tiny (projection identity_model) = inr [[ / 1000000000 * 1 + 0 ]].
Proof. reflexivity. Qed.







(** *** The loss of a step *)

Lemma neg_ln_sigmoid (x : R) : - ln (sigmoid x) = ln (1 + exp (- x)).
Proof.
  unfold sigmoid. pose proof (exp_pos (- x)) as Hexp.
  rewrite ln_Rinv by lra. lra.
Qed.

Lemma concat_ones_like (t : tensor) : concat (ones_like t) = map (fun _ => 1) (concat t).
Proof.
  unfold ones_like. induction t as [|row t IH]; simpl; [reflexivity|].
  rewrite IH, map_app. reflexivity.
Qed.

Lemma zip_with_map_r {A B C} (f : A -> B -> C) (g : A -> B) (l : list A) :
  zip_with f l (map g l) = map (fun x => f x (g x)) l.
Proof. induction l as [|x l IH]; simpl; [reflexivity|]. rewrite IH. reflexivity. Qed.

(** Against a target of ones the second term of the cross-entropy vanishes:
    each element costs [pos_weight * ln (1 + exp (- x))]. *)
Lemma binary_cross_entropy_ones (similarity : tensor) (pos_weight : R) :
  binary_cross_entropy_with_logits similarity (ones_like similarity) pos_weight =
  sum_list (map (fun x => pos_weight * ln (1 + exp (- x))) (concat similarity)) /
  INR (length (concat similarity)).
Proof.
  unfold binary_cross_entropy_with_logits. cbv zeta.
  rewrite concat_ones_like, zip_with_map_r, length_map.
  f_equal. f_equal. apply map_ext. intros x.
  rewrite <- neg_ln_sigmoid. lra.
Qed.

(** C2. On a batch (e1, e2), [training_step], and likewise [validation_step]
    and [test_step], computes its loss as the binary cross-entropy with
    logits of forward(e1, e2) against a target of ones of the same shape,
    with positive-class weight 0.89 / 0.11 and mean reduction: the mean of
    (0.89 / 0.11) * ln (1 + exp (- s)) over the similarities s.  No label
    enters the computation. *)
Theorem steps_use_all_positive_targets (model : SimilarityModel)
    (mask_1 mask_2 : nat -> nat -> bool) (e1 e2 : tensor) :
  training_step model mask_1 mask_2 [e1; e2] =
    (try! similarity := forward model mask_1 mask_2 e1 e2 in
     inr (binary_cross_entropy_with_logits similarity (ones_like similarity)
            (0.89 / 0.11))) /\
  validation_step_loss model mask_1 mask_2 [e1; e2] =
    training_step model mask_1 mask_2 [e1; e2] /\
  test_step_loss model mask_1 mask_2 [e1; e2] =
    training_step model mask_1 mask_2 [e1; e2] /\
  forall similarity,
    Forall (Forall (fun y => y = 1)) (ones_like similarity) /\
    Forall2 (fun row ones => length row = length ones) similarity (ones_like similarity) /\
    binary_cross_entropy_with_logits similarity (ones_like similarity) (0.89 / 0.11) =
      sum_list (map (fun s => 0.89 / 0.11 * ln (1 + exp (- s))) (concat similarity)) /
      INR (length (concat similarity)).
Proof.
  split; [reflexivity|]. split; [reflexivity|]. split; [reflexivity|].
  intros similarity. split; [|split].
  - unfold ones_like. apply Forall_map, Forall_forall. intros row _.
    apply Forall_map, Forall_forall. auto.
  - unfold ones_like. induction similarity as [|row t IH]; simpl; constructor; auto.
    rewrite length_map. reflexivity.
  - apply binary_cross_entropy_ones.
Qed.

(** *** The forward pass and [encode] *)

Lemma dropout_error_same (mask mask' : nat -> nat -> bool) (p : R) (x x' : tensor) (e : exn) :
  dropout mask p x = inl e -> dropout mask' p x' = inl e.
Proof.
  unfold dropout. destruct (Rlt_dec p 0); [auto|]. destruct (Rlt_dec 1 p); [auto|].
  destruct (Req_dec_T p 0); discriminate.
Qed.

(** X15. The forward pass compares what [encode] returns: it is the cosine
    similarity, with a trailing dimension, of [encode] of the first input and
    [encode] of the second, each with its own dropout draw, and it raises
    what they raise. *)
Theorem forward_is_cosine_of_encodes (model : SimilarityModel)
    (mask_1 mask_2 : nat -> nat -> bool) (e1 e2 : tensor) :
  forward model mask_1 mask_2 e1 e2 =
    (try! p1 := encode model mask_1 e1 in
     try! p2 := encode model mask_2 e2 in
     try! similarity := cosine_similarity p1 p2 in
     inr (unsqueeze similarity)).
Proof.
  unfold forward, encode.
  destruct (dropout mask_1 (dropout_fraction model) e1) as [e|d1] eqn:H1; simpl;
    [reflexivity|].
  destruct (dropout mask_2 (dropout_fraction model) e2) as [e|d2] eqn:H2; simpl.
  - apply (dropout_error_same _ mask_1 _ _ e1) in H2. congruence.
  - reflexivity.
Qed.

(** *** The range of the similarities *)

Lemma cauchy_schwarz (x y : vec) : dot x y * dot x y <= dot x x * dot y y.
Proof.
  revert y. induction x as [|a x IH]; intros y.
  - unfold dot, sum_list. simpl. lra.
  - destruct y as [|b y].
    + unfold dot, sum_list. simpl. nra.
    + specialize (IH y). pose proof (dot_self_nonneg x) as Hx.
      pose proof (dot_self_nonneg y) as Hy.
      change (dot (a :: x) (b :: y)) with (a * b + dot x y).
      change (dot (a :: x) (a :: x)) with (a * a + dot x x).
      change (dot (b :: y) (b :: y)) with (b * b + dot y y).
      set (s := dot x y) in *. set (A := dot x x) in *. set (B := dot y y) in *.
      assert (Hkey : 2 * (a * b) * s <= a * a * B + b * b * A).
      { destruct (Rle_dec 0 (a * b * s)) as [Hpos|Hneg]; [|nra].
        assert (HU : 0 <= a * a * B) by nra. assert (HV : 0 <= b * b * A) by nra.
        assert (Hsq : (a * b * s) * (a * b * s) <= (a * a * B) * (b * b * A)).
        { replace ((a * b * s) * (a * b * s)) with ((a * a) * (b * b) * (s * s)) by ring.
          replace ((a * a * B) * (b * b * A)) with ((a * a) * (b * b) * (A * B)) by ring.
          apply Rmult_le_compat_l; [nra|exact IH]. }
        replace (2 * (a * b) * s) with (2 * (a * b * s)) by ring.
        revert Hpos HU HV Hsq.
        generalize (a * b * s) (a * a * B) (b * b * A). clear.
        intros P U V HP HU HV Hsq.
        destruct (Rle_dec (2 * P) (U + V)) as [Hle|Hgt]; [exact Hle|exfalso].
        apply Rnot_le_lt in Hgt.
        assert (H1 : (U + V) * (U + V) < (2 * P) * (2 * P)) by nra.
        pose proof (Rle_0_sqr (U - V)) as H2. unfold Rsqr in H2.
        nra. }
      nra.
Qed.

Lemma dot_le_norms (x y : vec) : Rabs (dot x y) <= norm x * norm y.
Proof.
  unfold norm. rewrite <- sqrt_mult by apply dot_self_nonneg.
  rewrite <- sqrt_Rsqr_abs. apply sqrt_le_1.
  - apply Rle_0_sqr.
  - apply Rmult_le_pos; apply dot_self_nonneg.
  - unfold Rsqr. apply cauchy_schwarz.
Qed.

Lemma norm_nonneg (x : vec) : 0 <= norm x.
Proof. unfold norm. apply sqrt_pos. Qed.

(** The library's cosine lies between -1 and 1, clamp included. *)
Lemma clamped_cosine_range (x y : vec) :
  -1 <= dot x y / (Rmax (norm x) eps * Rmax (norm y) eps) <= 1.
Proof.
  pose proof (dot_le_norms x y) as Hd. pose proof eps_pos as He.
  pose proof (norm_nonneg x) as Hx. pose proof (norm_nonneg y) as Hy.
  pose proof (Rmax_l (norm x) eps) as Hxl. pose proof (Rmax_r (norm x) eps) as Hxr.
  pose proof (Rmax_l (norm y) eps) as Hyl. pose proof (Rmax_r (norm y) eps) as Hyr.
  set (mx := Rmax (norm x) eps) in *. set (my := Rmax (norm y) eps) in *.
  assert (Hpos : 0 < mx * my) by nra.
  assert (Hle : Rabs (dot x y) <= mx * my) by nra.
  assert (Hlo : - (mx * my) <= dot x y)
    by (unfold Rabs in Hle; destruct (Rcase_abs (dot x y)); lra).
  assert (Hhi : dot x y <= mx * my)
    by (unfold Rabs in Hle; destruct (Rcase_abs (dot x y)); lra).
  split.
  - apply Rmult_le_reg_r with (mx * my); [exact Hpos|].
    unfold Rdiv. rewrite Rmult_assoc, Rinv_l by lra. lra.
  - apply Rmult_le_reg_r with (mx * my); [exact Hpos|].
    unfold Rdiv. rewrite Rmult_assoc, Rinv_l by lra. lra.
Qed.

Lemma cosine_similarity_range (a b : tensor) (s : list R) :
  cosine_similarity a b = inr s -> Forall (fun v => -1 <= v <= 1) s.
Proof.
  unfold cosine_similarity.
  destruct (broadcast a b) as [e|[a' b']]; simpl; [discriminate|].
  intros [= <-]. revert b'. induction a' as [|x a' IH]; intros b'; [constructor|].
  destruct b' as [|y b']; [constructor|]. simpl. constructor; [|apply IH].
  apply clamped_cosine_range.
Qed.

(** What the forward pass returns is the unsqueezed list of its
    similarities, each between -1 and 1. *)
Lemma forward_similarities (model : SimilarityModel) (mask_1 mask_2 : nat -> nat -> bool)
    (e1 e2 out : tensor) :
  forward model mask_1 mask_2 e1 e2 = inr out ->
  exists s, out = unsqueeze s /\ Forall (fun v => -1 <= v <= 1) s.
Proof.
  unfold forward. intros H.
  destruct (dropout mask_1 (dropout_fraction model) e1) as [e|d1]; simpl in H;
    [discriminate|].
  destruct (dropout mask_2 (dropout_fraction model) e2) as [e|d2]; simpl in H;
    [discriminate|].
  destruct (matmul _ _ d1 _) as [e|p1]; simpl in H; [discriminate|].
  destruct (matmul _ _ d2 _) as [e|p2]; simpl in H; [discriminate|].
  destruct (cosine_similarity p1 p2) as [e|s] eqn:Hs; simpl in H; [discriminate|].
  injection H as <-. exists s. split; [reflexivity|].
  eapply cosine_similarity_range. exact Hs.
Qed.



(** *** The range of the loss *)

Lemma exp_le_mono (x y : R) : x <= y -> exp x <= exp y.
Proof.
  intros [Hlt | ->]; [left; apply exp_increasing; exact Hlt | right; reflexivity].
Qed.

Lemma ln_le_mono (x y : R) : 0 < x -> x <= y -> ln x <= ln y.
Proof.
  intros Hx [Hlt | ->]; [left; apply ln_increasing; assumption | right; reflexivity].
Qed.

Lemma softplus_range (v : R) :
  -1 <= v <= 1 -> ln (1 + exp (-1)) <= ln (1 + exp (- v)) <= ln (1 + exp 1).
Proof.
  intros [Hlo Hhi]. pose proof (exp_pos (-1)) as H1. pose proof (exp_pos (- v)) as H2.
  assert (Ha : exp (-1) <= exp (- v)) by (apply exp_le_mono; lra).
  assert (Hb : exp (- v) <= exp 1) by (apply exp_le_mono; lra).
  split; apply ln_le_mono; lra.
Qed.

Lemma mean_range (f : R -> R) (lo hi : R) (l : list R) :
  l <> [] ->
  Forall (fun x => lo <= f x <= hi) l ->
  lo <= sum_list (map f l) / INR (length l) <= hi.
Proof.
  intros Hne Hall.
  assert (Hsum : INR (length l) * lo <= sum_list (map f l) <= INR (length l) * hi).
  { clear Hne. induction Hall as [|x l Hx _ IH].
    - simpl. lra.
    - change (sum_list (map f (x :: l))) with (f x + sum_list (map f l)).
      change (length (x :: l)) with (S (length l)). rewrite S_INR. lra. }
  assert (Hn : 0 < INR (length l)).
  { apply lt_0_INR. destruct l; [contradiction|simpl; lia]. }
  split.
  - apply Rmult_le_reg_r with (INR (length l)); [exact Hn|].
    unfold Rdiv. rewrite Rmult_assoc, Rinv_l by lra. lra.
  - apply Rmult_le_reg_r with (INR (length l)); [exact Hn|].
    unfold Rdiv. rewrite Rmult_assoc, Rinv_l by lra. lra.
Qed.

Lemma concat_unsqueeze (s : list R) : concat (unsqueeze s) = s.
Proof. unfold unsqueeze. induction s as [|v s IH]; simpl; [reflexivity|]. rewrite IH. reflexivity. Qed.



(** *** When the forward pass raises *)

Lemma imap_rows_lengths {A B} (f : nat -> nat -> A -> B) (x : list (list A)) :
  map length (imap (fun i row => imap (f i) row) x) = map length x.
Proof.
  revert f. induction x as [|row x IH]; intros f; simpl; [reflexivity|].
  rewrite length_imap. f_equal. apply (IH (fun i => f (S i))).
Qed.

Lemma dropout_returns (mask : nat -> nat -> bool) (p : R) (x : tensor) :
  0 <= p <= 1 -> exists d, dropout mask p x = inr d /\ map length d = map length x.
Proof.
  intros Hp. unfold dropout.
  destruct (Rlt_dec p 0); [lra|]. destruct (Rlt_dec 1 p); [lra|].
  destruct (Req_dec_T p 0); eexists; split; try reflexivity.
  apply imap_rows_lengths.
Qed.

Lemma dropout_raises (mask : nat -> nat -> bool) (p : R) (x : tensor) :
  p < 0 \/ 1 < p ->
  dropout mask p x = inl (ValueError "dropout probability has to be between 0 and 1").
Proof.
  intros Hp. unfold dropout.
  destruct (Rlt_dec p 0); [reflexivity|]. destruct (Rlt_dec 1 p); [reflexivity|]. lra.
Qed.

Lemma matmul_by_lengths (rows cols : nat) (e : tensor) (m : nat -> nat -> R) :
  (Forall (fun k => k = rows) (map length e) ->
   exists out, matmul rows cols e m = inr out /\ length out = length e) /\
  (Exists (fun k => k <> rows) (map length e) ->
   matmul rows cols e m = inl (RuntimeError "mat1 and mat2 shapes cannot be multiplied")).
Proof.
  unfold matmul. split.
  - intros Hall. replace (forallb (fun x => (length x =? rows)%nat) e) with true.
    + eexists. split; [reflexivity|]. apply length_map.
    + symmetry. induction e as [|x e IH]; simpl; [reflexivity|].
      inversion Hall as [|? ? Hx Hrest]; subst.
      rewrite Nat.eqb_refl. apply IH. exact Hrest.
  - intros Hex. replace (forallb (fun x => (length x =? rows)%nat) e) with false;
      [reflexivity|].
    symmetry. induction e as [|x e IH]; simpl in *; [inversion Hex|].
    destruct (Nat.eqb_spec (length x) rows) as [Heq|Hne]; [|reflexivity].
    simpl. apply IH. inversion Hex; subst; [contradiction|assumption].
Qed.

(** X18. The forward pass raises [ValueError] when the dropout fraction is
    outside [0, 1], whatever the inputs; with a fraction inside, it raises
    the shape error of the matrix product when a row of either input does not
    have [embedding_size] entries; and with all rows of that size and equal
    batch sizes it returns one row per pair. *)
Theorem forward_raises_or_returns (model : SimilarityModel)
    (mask_1 mask_2 : nat -> nat -> bool) (e1 e2 : tensor) :
  (dropout_fraction model < 0 \/ 1 < dropout_fraction model ->
   forward model mask_1 mask_2 e1 e2 =
     inl (ValueError "dropout probability has to be between 0 and 1")) /\
  (0 <= dropout_fraction model <= 1 ->
   Exists (fun x => length x <> embedding_size model) (e1 ++ e2) ->
   forward model mask_1 mask_2 e1 e2 =
     inl (RuntimeError "mat1 and mat2 shapes cannot be multiplied")) /\
  (0 <= dropout_fraction model <= 1 ->
   Forall (fun x => length x = embedding_size model) (e1 ++ e2) ->
   length e1 = length e2 ->
   exists out, forward model mask_1 mask_2 e1 e2 = inr out /\ length out = length e1).
Proof.
  split; [|split].
  - intros Hp. unfold forward. rewrite (dropout_raises mask_1 _ e1 Hp). reflexivity.
  - intros Hp Hex. unfold forward.
    destruct (dropout_returns mask_1 _ e1 Hp) as (d1 & -> & Hl1).
    destruct (dropout_returns mask_2 _ e2 Hp) as (d2 & -> & Hl2). simpl.
    destruct (matmul_by_lengths (embedding_size model) (n_dims model) d1 (projection model))
      as [Hok1 Hbad1].
    destruct (matmul_by_lengths (embedding_size model) (n_dims model) d2 (projection model))
      as [Hok2 Hbad2].
    rewrite Hl1 in Hok1, Hbad1. rewrite Hl2 in Hok2, Hbad2.
    destruct (decide (Exists (fun k => k <> embedding_size model) (map length e1)))
      as [H1|H1].
    + rewrite (Hbad1 H1). reflexivity.
    + destruct Hok1 as (p1 & -> & _).
      { apply Forall_Exists_neg in H1. eapply Forall_impl; [exact H1|].
        intros k Hk. simpl in Hk. destruct (Nat.eq_dec k (embedding_size model)); tauto. }
      simpl. rewrite Hbad2; [reflexivity|].
      apply Exists_app in Hex as [Hex|Hex].
      * exfalso. apply H1. apply Exists_map. exact Hex.
      * apply Exists_map. exact Hex.
  - intros Hp Hall Hlen. unfold forward.
    destruct (dropout_returns mask_1 _ e1 Hp) as (d1 & -> & Hl1).
    destruct (dropout_returns mask_2 _ e2 Hp) as (d2 & -> & Hl2). simpl.
    apply Forall_app in Hall as [Ha1 Ha2].
    destruct (matmul_by_lengths (embedding_size model) (n_dims model) d1 (projection model))
      as [Hok1 _].
    destruct (matmul_by_lengths (embedding_size model) (n_dims model) d2 (projection model))
      as [Hok2 _].
    rewrite Hl1 in Hok1. rewrite Hl2 in Hok2.
    destruct Hok1 as (p1 & -> & Hp1); [apply Forall_map; exact Ha1|].
    destruct Hok2 as (p2 & -> & Hp2); [apply Forall_map; exact Ha2|].
    simpl. unfold cosine_similarity, broadcast.
    assert (Hd1 : length d1 = length e1).
    { apply (f_equal length) in Hl1. rewrite !length_map in Hl1. exact Hl1. }
    assert (Hd2 : length d2 = length e2).
    { apply (f_equal length) in Hl2. rewrite !length_map in Hl2. exact Hl2. }
    assert (Hd : length p1 = length p2) by congruence.
    rewrite Hd, Nat.eqb_refl. simpl. eexists. split; [reflexivity|].
    unfold unsqueeze. rewrite length_map, length_zip_with. lia.
Qed.

Lemma forward_raises_or_returns_witness :
  exists out, forward identity_model keep_all keep_all [[1]; [3]] [[2]; [5]] = inr out /\
              length out = length [[1]; [3]].
Proof.
  apply (forward_raises_or_returns identity_model keep_all keep_all [[1]; [3]] [[2]; [5]]).
  - simpl. lra.
  - repeat constructor.
  - reflexivity.
Defined.

(** *** Shape and symmetry *)

Lemma matmul_inr_shape (rows cols : nat) (e : tensor) (m : nat -> nat -> R) (p : tensor) :
  matmul rows cols e m = inr p ->
  length p = length e /\ Forall (fun x => length x = cols) p.
Proof.
  unfold matmul. destruct (forallb (fun x => (length x =? rows)%nat) e); [|discriminate].
  intros [= <-]. split; [apply length_map|]. apply Forall_map, Forall_forall. intros x _.
  unfold vec_mat. rewrite length_map, length_seq. reflexivity.
Qed.

(** X21. When [encode] returns, it returns one row per input row, each of
    [n_dims] entries. *)
Theorem encode_shape (model : SimilarityModel) (mask : nat -> nat -> bool)
    (embedding p : tensor) :
  encode model mask embedding = inr p ->
  length p = length embedding /\ Forall (fun x => length x = n_dims model) p.
Proof.
  unfold encode. intros H.
  destruct (dropout mask (dropout_fraction model) embedding) as [e|d] eqn:Hd; simpl in H;
    [discriminate|].
  apply matmul_inr_shape in H as [Hlen Hrows]. split; [|exact Hrows].
  rewrite Hlen. unfold dropout in Hd.
  destruct (Rlt_dec (dropout_fraction model) 0); [discriminate|].
  destruct (Rlt_dec 1 (dropout_fraction model)); [discriminate|].
  destruct (Req_dec_T (dropout_fraction model) 0); injection Hd as <-; [reflexivity|].
  apply length_imap.
Qed.

Lemma encode_shape_witness :
  length [[1 * 1 + 0]; [3 * 1 + 0]] = length [[1]; [3]] /\
  Forall (fun x => length x = n_dims identity_model) [[1 * 1 + 0]; [3 * 1 + 0]].
Proof.
  apply (encode_shape identity_model keep_all [[1]; [3]] [[1 * 1 + 0]; [3 * 1 + 0]]).
  unfold encode. change (dropout_fraction identity_model) with 0.
  rewrite dropout_zero. reflexivity.
Defined.

Lemma dot_comm (x y : vec) : dot x y = dot y x.
Proof.
  unfold dot, sum_list. revert y. induction x as [|a x IH]; intros [|b y]; simpl;
    try reflexivity.
  rewrite IH. lra.
Qed.

Lemma zip_with_swap {A B C} (f : A -> B -> C) (a : list A) (b : list B) :
  zip_with f a b = zip_with (fun y x => f x y) b a.
Proof.
  revert b. induction a as [|x a IH]; intros [|y b]; simpl; try reflexivity.
  rewrite IH. reflexivity.
Qed.

Lemma cosine_similarity_comm (a b : tensor) :
  cosine_similarity a b = cosine_similarity b a.
Proof.
  assert (Hb : broadcast a b =
               match broadcast b a with inl e => inl e | inr ba => inr (snd ba, fst ba) end).
  { unfold broadcast. rewrite (Nat.eqb_sym (length b) (length a)).
    destruct (length a =? length b)%nat eqn:Hlen; [reflexivity|].
    destruct a as [|x [|x' a]], b as [|y [|y' b]]; simpl in *;
      try reflexivity; discriminate. }
  unfold cosine_similarity. rewrite Hb.
  destruct (broadcast b a) as [e|[b' a']]; simpl; [reflexivity|].
  f_equal. rewrite zip_with_swap. apply zip_with_ext; [|reflexivity..].
  intros y x. rewrite dot_comm. f_equal. lra.
Qed.

Lemma matmul_cases (rows cols : nat) (e : tensor) (m : nat -> nat -> R) :
  matmul rows cols e m = inl (RuntimeError "mat1 and mat2 shapes cannot be multiplied") \/
  exists p, matmul rows cols e m = inr p.
Proof.
  unfold matmul. destruct (forallb (fun x => (length x =? rows)%nat) e); eauto.
Qed.

(** X22. The forward pass is symmetric: exchanging the two inputs, each with
    its dropout draw, gives the same similarities, or the same exception. *)
Theorem forward_symmetric (model : SimilarityModel) (mask_1 mask_2 : nat -> nat -> bool)
    (e1 e2 : tensor) :
  forward model mask_2 mask_1 e2 e1 = forward model mask_1 mask_2 e1 e2.
Proof.
  unfold forward.
  destruct (dropout mask_1 (dropout_fraction model) e1) as [e|d1] eqn:H1;
    destruct (dropout mask_2 (dropout_fraction model) e2) as [e'|d2] eqn:H2; simpl.
  - apply (dropout_error_same _ mask_2 _ _ e2) in H1. congruence.
  - apply (dropout_error_same _ mask_2 _ _ e2) in H1. congruence.
  - apply (dropout_error_same _ mask_1 _ _ e1) in H2. congruence.
  - destruct (matmul_cases (embedding_size model) (n_dims model) d1 (projection model))
      as [->|[p1 ->]];
      destruct (matmul_cases (embedding_size model) (n_dims model) d2 (projection model))
        as [->|[p2 ->]]; simpl; try reflexivity.
    rewrite (cosine_similarity_comm p2 p1). reflexivity.
Qed.

(** *** Predicted labels *)

Lemma sigmoid_gt_half (x : R) : 0.5 < sigmoid x <-> 0 < x.
Proof.
  unfold sigmoid. pose proof (exp_pos (- x)) as He.
  assert (Hinv : 0.5 < / (1 + exp (- x)) <-> exp (- x) < 1).
  { split; intros H.
    - assert (H' : 0.5 * (1 + exp (- x)) < / (1 + exp (- x)) * (1 + exp (- x))).
      { apply Rmult_lt_compat_r; lra. }
      rewrite Rinv_l in H' by lra. lra.
    - apply Rmult_lt_reg_r with (1 + exp (- x)); [lra|].
      rewrite Rinv_l by lra. lra. }
  rewrite Hinv. rewrite <- exp_0. split; intros H.
  - apply exp_lt_inv in H. lra.
  - apply exp_increasing. lra.
Qed.

Lemma fold_add_rows (g : R -> bool) (xs : list R) (a : Z) :
  fold_left (zip_with Z.add) (map (map Z.b2z) (map (fun x => [g x]) xs)) [a] =
  [(a + Z.of_nat (length (List.filter g xs)))%Z].
Proof.
  revert a. induction xs as [|x xs IH]; intros a; simpl.
  - f_equal. lia.
  - rewrite IH. destruct (g x); simpl; f_equal; lia.
Qed.

Lemma filter_complement (g h : R -> bool) (xs : list R) :
  (forall x, h x = negb (g x)) ->
  (length (List.filter g xs) + length (List.filter h xs))%nat = length xs.
Proof.
  intros Hgh. induction xs as [|x xs IH]; simpl; [reflexivity|].
  rewrite Hgh. destruct (g x); simpl; lia.
Qed.



End ModelFacts.

(** ** Theorems about applications/sentence-transformers-ft/finetune.py *)

Module FinetuneFacts.
Import Benchmark Finetune.

Lemma build_in_range (dataset : list row) (n : nat) :
  forall start examples,
    (start + n <= length dataset)%nat ->
    build dataset (seq start n) examples =
      inr (examples ++ map example (take n (drop start dataset))).
Proof.
  induction n as [|n IH]; intros start examples Hle; simpl.
  - rewrite app_nil_r. reflexivity.
  - destruct (lookup_lt_is_Some_2 dataset start ltac:(lia)) as [r Hr].
    rewrite Hr, IH by lia. rewrite (drop_S dataset r start Hr). simpl.
    rewrite <- app_assoc. reflexivity.
Qed.

(** X20. With a positive [dataset_fraction] the loop builds one example per
    row for exactly the first floor(rows / dataset_fraction) rows, in order,
    and never indexes past the last row; with 0 it raises
    [ZeroDivisionError]; with a negative value it builds no example. *)
Theorem build_examples_takes_prefix (dataset : list row) (dataset_fraction : Z) :
  (dataset_fraction = 0 -> build_examples dataset dataset_fraction = inl ZeroDivisionError) /\
  (0 < dataset_fraction ->
   build_examples dataset dataset_fraction =
     inr (map example
            (take (Z.to_nat (Z.of_nat (length dataset) / dataset_fraction)) dataset))) /\
  (dataset_fraction < 0 -> build_examples dataset dataset_fraction = inr []).
Proof.
  unfold build_examples, range. split; [|split].
  - intros ->. reflexivity.
  - intros Hpos. destruct (Z.eqb_spec dataset_fraction 0) as [->|_]; [lia|].
    rewrite build_in_range; [reflexivity|].
    assert (Z.of_nat (length dataset) / dataset_fraction <= Z.of_nat (length dataset)).
    { apply Z.div_le_upper_bound; nia. }
    assert (0 <= Z.of_nat (length dataset) / dataset_fraction).
    { apply Z.div_pos; lia. }
    lia.
  - intros Hneg. destruct (Z.eqb_spec dataset_fraction 0) as [->|_]; [lia|].
    assert (Hq : Z.of_nat (length dataset) / dataset_fraction <= 0).
    { pose proof (Z.mul_div_ge (Z.of_nat (length dataset)) dataset_fraction Hneg). nia. }
    replace (Z.to_nat (Z.of_nat (length dataset) / dataset_fraction)) with 0%nat by lia.
    reflexivity.
Qed.

Lemma build_examples_takes_prefix_witness :
  build_examples four_rows 2 = inr (map example (take 2 four_rows)).
Proof.
  apply (build_examples_takes_prefix four_rows 2). reflexivity.
Defined.

End FinetuneFacts.
